(** * ChatECNU-Desktop: the meeting recorder and the meeting API client

    A shallow embedding of [src/meeting-recorder.js]: the class
    [MeetingRecorder] (capture, mixing, chunking, cleanup) and the class
    [MeetingAPI] (create / submit / end against the remote service); and of
    the release script [src/upload-to-oss.js].

    The browser objects the code touches (media tracks, streams, audio
    contexts, the encoder) live in an explicit [Host] heap; what the host
    answers to each call ([getUserMedia], [getSources], constructors that may
    throw, [mediaRecorder.stop()], [fetch]) is an input of the embedded
    method, and so is what the functions assigned to [onAudioChunk] and
    [onError] do when a handler calls them.  JavaScript exceptions are
    modelled by a state-and-exception monad [M], so that [try]/[catch] keeps
    the state reached when the exception was raised, as in the source. *)

From stdpp Require Import base option list gmap strings pretty.

Set Warnings "-clear-no-such-hyp".

Open Scope string_scope.
Open Scope list_scope.

(** ** JavaScript errors and completions *)

(** [new Error(msg)]: the code tells its failures apart by message only. *)
Record JsError := Error { message : string }.

#[global] Instance JsError_eq_dec : EqDecision JsError.
Proof. solve_decision. Defined.

Inductive Completion (A : Type) :=
  | Normal (a : A)
  | Throw (e : JsError).
Arguments Normal {A} a.
Arguments Throw {A} e.

(** The messages of the [throw] statements of the source, under the names the
    specification gives to the failures. *)
Definition AlreadyRecordingError : JsError := Error "录音已在进行中".
Definition NoSourceError : JsError := Error "没有可用的音频流".
Definition AcquisitionError (cause : JsError) : JsError :=
  Error ("无法获取麦克风权限: " +:+ message cause).
Definition NoScreenSourceError : JsError := Error "没有可用的屏幕源".
Definition NoSystemAudioError : JsError := Error "无法获取系统音频".
Definition NoActiveSessionError : JsError := Error "会议未创建".

(** ** Media objects of the host *)

Inductive TrackKind := Audio | Video.

#[global] Instance TrackKind_eq_dec : EqDecision TrackKind.
Proof. solve_decision. Defined.

Record Track := { track_id : nat; kind : TrackKind }.

(** A [MediaStream] object: its identity and the tracks it holds.  The code
    never adds or removes a track, so the track list is fixed at creation;
    whether a track is still live is host state ([live] below). *)
Record MediaStream := { stream_id : nat; getTracks : list Track }.

Definition is_audio (t : Track) : bool :=
  match kind t with Audio => true | Video => false end.
Definition is_video (t : Track) : bool :=
  match kind t with Audio => false | Video => true end.
Definition getAudioTracks (s : MediaStream) : list Track :=
  List.filter is_audio (getTracks s).
Definition getVideoTracks (s : MediaStream) : list Track :=
  List.filter is_video (getTracks s).

(** An [AudioContext] with its [MediaStreamAudioDestinationNode]: the sample
    rate it was created with, the streams whose source node was connected to
    the destination (by stream id, in connection order), the destination's
    stream, and whether [close()] was called. *)
Record Graph := {
  sampleRate : N;
  connected : list nat;
  destination : MediaStream;
  closed : bool
}.

Definition Blob := list Byte.byte.
(** [blob.size] *)
Definition Blob_size (b : Blob) : nat := length b.

(** One invocation of the [onAudioChunk] callback: [(blob, sequence, timestamp)]. *)
Record AudioChunk := { payload : Blob; chunk_sequence : nat; capturedAt : N }.

(** The [MediaRecorder] object built by [start]: constructor arguments, and
    the timeslice given to [start(timeslice)] ([None] while inactive).  Its
    [ondataavailable] and [onerror] handlers are the closures of [start],
    embedded below as [ondataavailable] and [onerror]. *)
Record Encoder := {
  enc_stream : MediaStream;
  enc_mimeType : string;
  enc_audioBitsPerSecond : N;
  enc_timeslice : option N
}.

(** The host heap.  [fresh] is the next unused object id; [live] holds the ids
    of the capture tracks handed out by [getUserMedia] on which [stop()] has
    not been called; [graphs] maps an audio context id to its graph;
    [emitted] and [reported] log the calls made to the [onAudioChunk] and
    [onError] callbacks, oldest first. *)
Record Host := {
  fresh : nat;
  live : gset nat;
  graphs : gmap nat Graph;
  emitted : list AudioChunk;
  reported : list JsError
}.

Definition Host_init : Host :=
  {| fresh := 0; live := ∅; graphs := ∅; emitted := []; reported := [] |}.

(** ** The recorder object *)

Record MeetingRecorder := {
  mediaRecorder : option Encoder;
  audioContext : option nat;
  micStream : option MediaStream;
  systemStream : option MediaStream;
  mixedStream : option MediaStream;
  audioChunks : list Blob;
  sequence : nat;
  isRecording : bool;
  onAudioChunk : bool;   (* is a callback registered (truthy)? *)
  onError : bool;
  chunkInterval : N;
  mimeType : string
}.

(** [constructor()] *)
Definition MeetingRecorder_new : MeetingRecorder :=
  {| mediaRecorder := None; audioContext := None; micStream := None;
     systemStream := None; mixedStream := None; audioChunks := [];
     sequence := 0; isRecording := false; onAudioChunk := false;
     onError := false; chunkInterval := 5000;
     mimeType := "audio/webm;codecs=opus" |}.

Definition set_mediaRecorder (v : option Encoder) (r : MeetingRecorder) :=
  {| mediaRecorder := v; audioContext := audioContext r;
     micStream := micStream r; systemStream := systemStream r;
     mixedStream := mixedStream r; audioChunks := audioChunks r;
     sequence := sequence r; isRecording := isRecording r;
     onAudioChunk := onAudioChunk r; onError := onError r;
     chunkInterval := chunkInterval r; mimeType := mimeType r |}.
Definition set_audioContext (v : option nat) (r : MeetingRecorder) :=
  {| mediaRecorder := mediaRecorder r; audioContext := v;
     micStream := micStream r; systemStream := systemStream r;
     mixedStream := mixedStream r; audioChunks := audioChunks r;
     sequence := sequence r; isRecording := isRecording r;
     onAudioChunk := onAudioChunk r; onError := onError r;
     chunkInterval := chunkInterval r; mimeType := mimeType r |}.
Definition set_micStream (v : option MediaStream) (r : MeetingRecorder) :=
  {| mediaRecorder := mediaRecorder r; audioContext := audioContext r;
     micStream := v; systemStream := systemStream r;
     mixedStream := mixedStream r; audioChunks := audioChunks r;
     sequence := sequence r; isRecording := isRecording r;
     onAudioChunk := onAudioChunk r; onError := onError r;
     chunkInterval := chunkInterval r; mimeType := mimeType r |}.
Definition set_systemStream (v : option MediaStream) (r : MeetingRecorder) :=
  {| mediaRecorder := mediaRecorder r; audioContext := audioContext r;
     micStream := micStream r; systemStream := v;
     mixedStream := mixedStream r; audioChunks := audioChunks r;
     sequence := sequence r; isRecording := isRecording r;
     onAudioChunk := onAudioChunk r; onError := onError r;
     chunkInterval := chunkInterval r; mimeType := mimeType r |}.
Definition set_mixedStream (v : option MediaStream) (r : MeetingRecorder) :=
  {| mediaRecorder := mediaRecorder r; audioContext := audioContext r;
     micStream := micStream r; systemStream := systemStream r;
     mixedStream := v; audioChunks := audioChunks r;
     sequence := sequence r; isRecording := isRecording r;
     onAudioChunk := onAudioChunk r; onError := onError r;
     chunkInterval := chunkInterval r; mimeType := mimeType r |}.
Definition set_audioChunks (v : list Blob) (r : MeetingRecorder) :=
  {| mediaRecorder := mediaRecorder r; audioContext := audioContext r;
     micStream := micStream r; systemStream := systemStream r;
     mixedStream := mixedStream r; audioChunks := v;
     sequence := sequence r; isRecording := isRecording r;
     onAudioChunk := onAudioChunk r; onError := onError r;
     chunkInterval := chunkInterval r; mimeType := mimeType r |}.
Definition set_sequence (v : nat) (r : MeetingRecorder) :=
  {| mediaRecorder := mediaRecorder r; audioContext := audioContext r;
     micStream := micStream r; systemStream := systemStream r;
     mixedStream := mixedStream r; audioChunks := audioChunks r;
     sequence := v; isRecording := isRecording r;
     onAudioChunk := onAudioChunk r; onError := onError r;
     chunkInterval := chunkInterval r; mimeType := mimeType r |}.
Definition set_isRecording (v : bool) (r : MeetingRecorder) :=
  {| mediaRecorder := mediaRecorder r; audioContext := audioContext r;
     micStream := micStream r; systemStream := systemStream r;
     mixedStream := mixedStream r; audioChunks := audioChunks r;
     sequence := sequence r; isRecording := v;
     onAudioChunk := onAudioChunk r; onError := onError r;
     chunkInterval := chunkInterval r; mimeType := mimeType r |}.
Definition set_onError (v : bool) (r : MeetingRecorder) :=
  {| mediaRecorder := mediaRecorder r; audioContext := audioContext r;
     micStream := micStream r; systemStream := systemStream r;
     mixedStream := mixedStream r; audioChunks := audioChunks r;
     sequence := sequence r; isRecording := isRecording r;
     onAudioChunk := onAudioChunk r; onError := v;
     chunkInterval := chunkInterval r; mimeType := mimeType r |}.

(** ** The monad of a method body: object and host state, exceptions *)

Definition Eff (Σ A : Type) : Type := Σ → Completion A * Σ.

Definition ret {Σ A} (a : A) : Eff Σ A := λ s, (Normal a, s).
Definition throw {Σ A} (e : JsError) : Eff Σ A := λ s, (Throw e, s).
Definition bind {Σ A B} (m : Eff Σ A) (k : A → Eff Σ B) : Eff Σ B :=
  λ s, match m s with
       | (Normal a, s') => k a s'
       | (Throw e, s') => (Throw e, s')
       end.
(** [try { body } catch (error) { handler }] *)
Definition try_catch {Σ A} (body : Eff Σ A) (handler : JsError → Eff Σ A) : Eff Σ A :=
  λ s, match body s with
       | (Normal a, s') => (Normal a, s')
       | (Throw e, s') => handler e s'
       end.

Notation "'let*' x := m 'in' k" := (bind m (λ x, k))
  (at level 10, x name, m at level 100, k at level 200, only parsing).
Notation "m ;;; k" := (bind m (λ _, k))
  (at level 100, k at level 200, right associativity, only parsing).

(** [this] is the object the method runs on, the second component what lies
    outside of it (the host heap, the network). *)
Definition this {T W} : Eff (T * W) T := λ s, (Normal s.1, s).
Definition update_this {T W} (f : T → T) : Eff (T * W) unit :=
  λ s, (Normal tt, (f s.1, s.2)).

(** Methods of the recorder. *)
Definition State : Type := MeetingRecorder * Host.
Abbreviation M := (Eff State).

Definition host : M Host := λ s, (Normal s.2, s).
Definition update_host (f : Host → Host) : M unit :=
  λ s, (Normal tt, (s.1, f s.2)).

Fixpoint forEach {Σ A} (f : A → Eff Σ unit) (l : list A) : Eff Σ unit :=
  match l with
  | [] => ret tt
  | x :: l' => f x ;;; forEach f l'
  end.

(** ** Host calls *)

Definition set_fresh (v : nat) (h : Host) : Host :=
  {| fresh := v; live := live h; graphs := graphs h;
     emitted := emitted h; reported := reported h |}.
Definition set_live (v : gset nat) (h : Host) : Host :=
  {| fresh := fresh h; live := v; graphs := graphs h;
     emitted := emitted h; reported := reported h |}.
Definition set_graphs (v : gmap nat Graph) (h : Host) : Host :=
  {| fresh := fresh h; live := live h; graphs := v;
     emitted := emitted h; reported := reported h |}.
Definition set_emitted (v : list AudioChunk) (h : Host) : Host :=
  {| fresh := fresh h; live := live h; graphs := graphs h;
     emitted := v; reported := reported h |}.
Definition set_reported (v : list JsError) (h : Host) : Host :=
  {| fresh := fresh h; live := live h; graphs := graphs h;
     emitted := emitted h; reported := v |}.

(** What the host answers during one call of [start]: the outcome of each
    call that can fail.  A capture that succeeds is described by the kinds of
    the tracks of the stream it hands out. *)
Record Env := {
  (* navigator.mediaDevices.getUserMedia({ audio: {...}, video: false }) *)
  mic_result : Completion (list TrackKind);
  (* desktopCapturer.getSources({ types: ['screen'], ... }): the source ids *)
  sources_result : Completion (list string);
  (* navigator.mediaDevices.getUserMedia({ audio/video: desktop, source id }) *)
  desktop_result : string → Completion (list TrackKind);
  (* new AudioContext({ sampleRate }) *)
  context_result : option JsError;
  (* audioContext.createMediaStreamSource(stream) *)
  source_node_result : MediaStream → option JsError;
  (* new MediaRecorder(stream, options) *)
  recorder_result : option JsError;
  (* mediaRecorder.start(timeslice) *)
  recorder_start_result : option JsError
}.

Fixpoint mk_tracks (i : nat) (kinds : list TrackKind) : list Track :=
  match kinds with
  | [] => []
  | k :: ks => {| track_id := i; kind := k |} :: mk_tracks (S i) ks
  end.

Definition track_ids (ts : list Track) : gset nat :=
  list_to_set (track_id <$> ts).

(** A successful capture: the host creates the tracks, all live, and a stream
    object holding them. *)
Definition capture (kinds : list TrackKind) : M MediaStream :=
  λ s, let h := s.2 in
       let ts := mk_tracks (fresh h) kinds in
       let sid := fresh h + length kinds in
       (Normal {| stream_id := sid; getTracks := ts |},
        (s.1, set_live (live h ∪ track_ids ts) (set_fresh (S sid) h))).

Definition getUserMedia (outcome : Completion (list TrackKind)) : M MediaStream :=
  match outcome with
  | Normal kinds => capture kinds
  | Throw e => throw e
  end.

Definition getSources (env : Env) : M (list string) :=
  match sources_result env with
  | Normal ids => ret ids
  | Throw e => throw e
  end.

(** [new MediaStream(tracks)]: a new stream object over the same tracks. *)
Definition new_MediaStream (ts : list Track) : M MediaStream :=
  λ s, let h := s.2 in
       (Normal {| stream_id := fresh h; getTracks := ts |},
        (s.1, set_fresh (S (fresh h)) h)).

(** [track.stop()] *)
Definition track_stop (t : Track) : M unit :=
  update_host (λ h, set_live (live h ∖ {[ track_id t ]}) h).

(** [new AudioContext({ sampleRate })].  The graph is entered in the heap
    together with the destination node, and its output stream, that
    [createMediaStreamDestination] hands out below; the track of that stream
    is produced by the graph and is not a capture track. *)
Definition new_AudioContext (env : Env) (rate : N) : M nat :=
  match context_result env with
  | Some e => throw e
  | None =>
      λ s, let h := s.2 in
           let dest := {| stream_id := S (fresh h);
                          getTracks := [ {| track_id := S (S (fresh h));
                                            kind := Audio |} ] |} in
           (Normal (fresh h),
            (s.1, set_graphs (<[ fresh h :=
                                   {| sampleRate := rate; connected := [];
                                      destination := dest; closed := false |} ]>
                                (graphs h))
                    (set_fresh (S (S (S (fresh h)))) h)))
  end.

Definition TypeError : JsError := Error "TypeError".

(** [audioContext.createMediaStreamDestination().stream]: the destination
    node of the context and its output stream. *)
Definition createMediaStreamDestination (ctx : nat) : M MediaStream :=
  let* h := host in
  match graphs h !! ctx with
  | Some g => ret (destination g)
  | None => throw TypeError
  end.

(** The graph once the source nodes of the streams [ids] are connected to
    its destination. *)
Definition connect_all (ids : list nat) (g : Graph) : Graph :=
  {| sampleRate := sampleRate g; connected := connected g ++ ids;
     destination := destination g; closed := closed g |}.

Definition close_graph (g : Graph) : Graph :=
  {| sampleRate := sampleRate g; connected := connected g;
     destination := destination g; closed := true |}.

(** [audioContext.createMediaStreamSource(stream).connect(destination)] *)
Definition connect_source (env : Env) (ctx : nat) (stream : MediaStream) : M unit :=
  match source_node_result env stream with
  | Some e => throw e
  | None =>
      update_host (λ h,
        set_graphs (alter (connect_all [stream_id stream]) ctx (graphs h)) h)
  end.

(** [audioContext.close()] *)
Definition context_close (ctx : nat) : M unit :=
  update_host (λ h, set_graphs (alter close_graph ctx (graphs h)) h).

(** [new MediaRecorder(stream, { mimeType, audioBitsPerSecond })] *)
Definition new_MediaRecorder (env : Env) (stream : MediaStream)
    (mime : string) (bps : N) : M Encoder :=
  match recorder_result env with
  | Some e => throw e
  | None => ret {| enc_stream := stream; enc_mimeType := mime;
                   enc_audioBitsPerSecond := bps; enc_timeslice := None |}
  end.

(** [mediaRecorder.start(timeslice)] *)
Definition MediaRecorder_start (env : Env) (enc : Encoder) (timeslice : N) : M Encoder :=
  match recorder_start_result env with
  | Some e => throw e
  | None => ret {| enc_stream := enc_stream enc; enc_mimeType := enc_mimeType enc;
                   enc_audioBitsPerSecond := enc_audioBitsPerSecond enc;
                   enc_timeslice := Some timeslice |}
  end.

(** ** [MeetingRecorder] methods *)

Record Options := { includeMic : bool; includeSystem : bool }.

(** The default argument of [start]. *)
Definition Options_default : Options :=
  {| includeMic := true; includeSystem := true |}.

(** [getMicrophoneStream()]: a failure of the host call is rethrown, wrapped. *)
Definition getMicrophoneStream (env : Env) : M MediaStream :=
  try_catch
    (let* stream := getUserMedia (mic_result env) in
     ret stream)
    (λ error, throw (AcquisitionError error)).

(** [getSystemAudioStream()]: every failure inside is caught and turned into
    [null]. *)
Definition getSystemAudioStream (env : Env) : M (option MediaStream) :=
  try_catch
    (let* sources := getSources env in
     match sources with
     | [] => throw NoScreenSourceError
     | source0 :: _ =>
         let* stream := getUserMedia (desktop_result env source0) in
         let audioTracks := getAudioTracks stream in
         if decide (length audioTracks = 0) then throw NoSystemAudioError
         else
           forEach track_stop (getVideoTracks stream) ;;;
           let* audio_only := new_MediaStream audioTracks in
           ret (Some audio_only)
     end)
    (λ error, ret None).

(** [streams.filter(s => s !== null)] *)
Definition filter_non_null (streams : list (option MediaStream)) : list MediaStream :=
  omap id streams.

(** [mixAudioStreams(streams)].  The context the [forEach] body reads from
    [this.audioContext] is the one assigned just before. *)
Definition mixAudioStreams (env : Env) (streams : list (option MediaStream))
    : M MediaStream :=
  let validStreams := filter_non_null streams in
  match validStreams with
  | [] => throw NoSourceError
  | [only] => ret only
  | _ =>
      let* ctx := new_AudioContext env 16000 in
      update_this (set_audioContext (Some ctx)) ;;;
      let* destination_stream := createMediaStreamDestination ctx in
      forEach (connect_source env ctx) validStreams ;;;
      ret destination_stream
  end.

(** [cleanup()] *)
Definition cleanup : M unit :=
  let* r := this in
  match micStream r with
  | Some s => forEach track_stop (getTracks s) ;;; update_this (set_micStream None)
  | None => ret tt
  end ;;;
  let* r := this in
  match systemStream r with
  | Some s => forEach track_stop (getTracks s) ;;; update_this (set_systemStream None)
  | None => ret tt
  end ;;;
  let* r := this in
  match audioContext r with
  | Some ctx => context_close ctx ;;; update_this (set_audioContext None)
  | None => ret tt
  end ;;;
  update_this (set_mixedStream None) ;;;
  update_this (set_mediaRecorder None) ;;;
  update_this (set_isRecording false).

(** *** The caller's callbacks

    [onAudioChunk] and [onError] hold [null] or a function of the caller.
    The recorder's fields keep whether a function is assigned; what the
    function does when called is an input of the handler that calls it: it
    may change the recorder and the host's objects in any way, and it may
    throw. *)
Record Caller := {
  onAudioChunk_fn : Blob → nat → N → M unit;   (* (blob, sequence, timestamp) => void *)
  onError_fn : JsError → M unit                (* (error) => void *)
}.

(** A call out of the recorder into a function of the caller.  The logs
    [emitted] and [reported] are the record of such calls, not objects of
    the program, so the function cannot change them. *)
Definition call_out (f : M unit) : M unit :=
  λ s, let (c, s') := f s in
       (c, (s'.1, set_reported (reported s.2) (set_emitted (emitted s.2) s'.2))).

(** [this.onAudioChunk(blob, sequence, timestamp)] and [this.onError(error)]:
    the call is logged, then the function runs. *)
Definition call_onAudioChunk (caller : Caller) (blob : Blob) (sequence : nat)
    (timestamp : N) : M unit :=
  update_host (λ h, set_emitted
    (emitted h ++ [ {| payload := blob; chunk_sequence := sequence;
                       capturedAt := timestamp |} ]) h) ;;;
  call_out (onAudioChunk_fn caller blob sequence timestamp).

Definition call_onError (caller : Caller) (error : JsError) : M unit :=
  update_host (λ h, set_reported (reported h ++ [error]) h) ;;;
  call_out (onError_fn caller error).

(** The [ondataavailable] handler installed by [start]; [data] is
    [event.data] and [now] the value of [Date.now()].  The call of the
    callback is not guarded: what it throws, the handler throws. *)
Definition ondataavailable (caller : Caller) (data : Blob) (now : N) : M unit :=
  if decide (0 < Blob_size data) then
    update_this (λ r, set_sequence (S (sequence r)) r) ;;;
    let timestamp := now in
    let* r := this in
    if onAudioChunk r then
      call_onAudioChunk caller data (sequence r) timestamp
    else ret tt
  else ret tt.

(** The [onerror] handler installed by [start]. *)
Definition onerror (caller : Caller) (error : JsError) : M unit :=
  let* r := this in
  if onError r then call_onError caller error
  else ret tt.

(** [start(options)]: the value returned on success is [{ success: true }]. *)
Definition start (env : Env) (options : Options) : M bool :=
  let* r := this in
  if isRecording r then throw AlreadyRecordingError
  else
    try_catch
      (let streams : list (option MediaStream) := [] in
       let* streams :=
         if includeMic options then
           let* mic := getMicrophoneStream env in
           update_this (set_micStream (Some mic)) ;;;
           ret (streams ++ [Some mic])
         else ret streams in
       let* streams :=
         if includeSystem options then
           let* sys := getSystemAudioStream env in
           update_this (set_systemStream sys) ;;;
           match sys with
           | Some s => ret (streams ++ [Some s])
           | None => ret streams
           end
         else ret streams in
       let* mixed := mixAudioStreams env streams in
       update_this (set_mixedStream (Some mixed)) ;;;
       let* r := this in
       let* enc := new_MediaRecorder env mixed (mimeType r) 64000 in
       update_this (set_mediaRecorder (Some enc)) ;;;
       update_this (set_sequence 0) ;;;
       update_this (set_audioChunks []) ;;;
       let* r := this in
       let* enc := MediaRecorder_start env enc (chunkInterval r) in
       update_this (set_mediaRecorder (Some enc)) ;;;
       update_this (set_isRecording true) ;;;
       ret true)
      (λ error, cleanup ;;; throw error).

(** *** Events of the encoder *)

(** An event the encoder fires at the handlers installed by [start]. *)
Inductive EncoderEvent :=
  | DataAvailable (data : Blob) (now : N)
  | ErrorEvent (error : JsError).

(** The handler registered for the event. *)
Definition deliver (caller : Caller) (ev : EncoderEvent) : M unit :=
  match ev with
  | DataAvailable data now => ondataavailable caller data now
  | ErrorEvent error => onerror caller error
  end.

(** The host fires one event: the handler runs, and an exception it throws
    ends the handler only.  The host reports it and goes on with the next
    event; the state is as the handler left it. *)
Definition dispatch (caller : Caller) (ev : EncoderEvent) : M unit :=
  try_catch (deliver caller ev) (λ uncaught, ret tt).

(** One encoder flush: the blob and the clock. *)
Definition Flush : Type := Blob * N.


(** What the host makes of [mediaRecorder.stop()].  The call itself may
    throw (an encoder that is not recording, in engines that reject this).
    Otherwise the host fires the events still due, and after them the [stop]
    event, if it fires one at all: an encoder that is already inactive, or
    a host that never gets to it, fires none. *)
Inductive StopAnswer :=
  | StopThrows (e : JsError)
  | StopEvents (evs : list EncoderEvent) (stopped : bool).

(** How far the promise returned by [stop()] gets under a given answer of
    the host; a rejection is a [Throw]. *)
Inductive Settled (A : Type) :=
  | Fulfilled (a : A)
  | Pending.
Arguments Fulfilled {A} a.
Arguments Pending {A}.

(** The [onstop] handler installed by [stop()]; [resolve] settles the
    promise. *)
Definition onstop : M (Settled bool) :=
  cleanup ;;;
  ret (Fulfilled true).

(** [stop()].  The value on success is [{ success: true }].  When the
    recorder is recording, the executor of the promise assigns [onstop],
    calls [mediaRecorder.stop()] and clears the flag; an exception in the
    executor rejects the promise, and the promise is settled by [onstop]
    alone, so it stays pending when no [stop] event comes. *)
Definition stop (caller : Caller) (answer : StopAnswer) : M (Settled bool) :=
  let* r := this in
  if negb (isRecording r) then ret (Fulfilled true)
  else
    match mediaRecorder r with
    | None => throw TypeError
    | Some _ =>
        match answer with
        | StopThrows e => throw e
        | StopEvents evs stopped =>
            update_this (set_isRecording false) ;;;
            forEach (dispatch caller) evs ;;;
            if stopped then onstop else ret Pending
        end
    end.

(** [getStatus()] *)
Definition getStatus (r : MeetingRecorder) : bool * nat :=
  (isRecording r, sequence r).

(** ** [MeetingAPI]: the client of the remote meeting service *)

Definition API_BASE_URL : string := "https://chat.ecnu.edu.cn/api/meeting".

(** [meetingId] is [null] ([None]) or the id the service returned. *)
Record MeetingAPI := { baseUrl : string; meetingId : option string }.

(** [constructor(baseUrl = API_BASE_URL)] *)
Definition MeetingAPI_new (baseUrl : string) : MeetingAPI :=
  {| baseUrl := baseUrl; meetingId := None |}.

Definition set_meetingId (v : option string) (a : MeetingAPI) : MeetingAPI :=
  {| baseUrl := baseUrl a; meetingId := v |}.
(** [setBaseUrl(url)] *)
Definition setBaseUrl (url : string) (a : MeetingAPI) : MeetingAPI :=
  {| baseUrl := url; meetingId := meetingId a |}.
(** [getMeetingId()] *)
Definition getMeetingId (a : MeetingAPI) : option string := meetingId a.

(** JavaScript truthiness of [this.meetingId]: [null] and the empty string
    are falsy. *)
Definition truthy (v : option string) : bool :=
  match v with
  | None => false
  | Some s => negb (String.eqb s EmptyString)
  end.

(** [`${this.meetingId}`] *)
Definition id_to_string (v : option string) : string :=
  match v with
  | None => "null"
  | Some s => s
  end.

Inductive FormValue :=
  | FileField (blob : Blob) (filename : string)
  | TextField (value : string).

Inductive Body :=
  | NoBody
  | JsonBody (userId title : string)          (* JSON.stringify({ userId, title }) *)
  | FormData (entries : list (string * FormValue)).

Record Request := {
  url : string;
  method : string;
  headers : list (string * string);
  body : Body;
  credentials : string
}.

(** The response of [fetch]: [response.ok], [response.status] and the outcome
    of [response.json()], typed as the JSDoc of each method declares it. *)
Record Response (D : Type) := {
  ok : bool;
  status : nat;
  json : Completion D
}.
Arguments ok {D} _.
Arguments status {D} _.
Arguments json {D} _.

Record CreateData := { data_meetingId : string; data_status : string }.
Record AudioData := {
  speaker : option string; transcript : option string; summary : option string
}.
Record EndData := { finalSummary : string; duration : N }.

(** The client object and the requests issued so far, oldest first. *)
Definition ApiState : Type := MeetingAPI * list Request.
Abbreviation Net := (Eff ApiState).

(** [await fetch(url, init)]: the request goes out, then the host's outcome
    (a response, or a rejection such as a network error) comes back. *)
Definition fetch {D} (req : Request) (outcome : Completion (Response D))
    : Net (Response D) :=
  λ s, (outcome, (s.1, s.2 ++ [req])).

(** [await response.json()] *)
Definition response_json {D} (response : Response D) : Net D :=
  λ s, (json response, s).

(** The errors of a non-2xx response.  [response.status] is an unsigned
    short, which [`${response.status}`] prints in decimal. *)
Definition CreateError (status : nat) : JsError :=
  Error ("创建会议失败: " +:+ pretty status).
Definition SubmitError (status : nat) : JsError :=
  Error ("提交音频失败: " +:+ pretty status).
Definition EndError (status : nat) : JsError :=
  Error ("结束会议失败: " +:+ pretty status).

(** [createMeeting(userId, title = '')] *)
Definition createMeeting (userId title : string)
    (outcome : Completion (Response CreateData)) : Net CreateData :=
  try_catch
    (let* a := this in
     let* response :=
       fetch {| url := baseUrl a +:+ "/create"; method := "POST";
                headers := [("Content-Type", "application/json")];
                body := JsonBody userId title;
                credentials := "include" |} outcome in
     if negb (ok response) then throw (CreateError (status response))
     else
       let* data := response_json response in
       update_this (set_meetingId (Some (data_meetingId data))) ;;;
       ret data)
    (λ error, throw error).

(** [Number.MAX_SAFE_INTEGER], 2^53 - 1. *)
Definition MAX_SAFE_INTEGER : N := 9007199254740991.

(** [n.toString()] and [`${n}`] for a number whose value is the natural
    [n].  Up to [MAX_SAFE_INTEGER] the result is the decimal digits of [n].
    Beyond, the host prints the shortest digits that read back as the same
    double, and switches to exponent notation at 1e21: [beyond] stands for
    that part of the conversion, which is left to the host. *)
Definition Number_toString (beyond : N → string) (n : N) : string :=
  if decide (n ≤ MAX_SAFE_INTEGER)%N then pretty n else beyond n.

(** [submitAudio(audioBlob, sequence, timestamp)], on numbers as the JSDoc
    says. *)
Definition submitAudio (beyond : N → string) (audioBlob : Blob)
    (sequence : nat) (timestamp : N)
    (outcome : Completion (Response AudioData)) : Net AudioData :=
  let* a := this in
  if negb (truthy (meetingId a)) then throw NoActiveSessionError
  else
    try_catch
      (let formData :=
         [ ("audio", FileField audioBlob
                       ("audio_" +:+ Number_toString beyond (N.of_nat sequence)
                          +:+ ".webm"));
           ("sequence", TextField (Number_toString beyond (N.of_nat sequence)));
           ("timestamp", TextField (Number_toString beyond timestamp)) ] in
       let* a := this in
       let* response :=
         fetch {| url := baseUrl a +:+ "/" +:+ id_to_string (meetingId a) +:+ "/audio";
                  method := "POST"; headers := [];
                  body := FormData formData;
                  credentials := "include" |} outcome in
       if negb (ok response) then throw (SubmitError (status response))
       else response_json response)
      (λ error, throw error).

(** [endMeeting()] *)
Definition endMeeting (outcome : Completion (Response EndData)) : Net EndData :=
  let* a := this in
  if negb (truthy (meetingId a)) then throw NoActiveSessionError
  else
    try_catch
      (let* a := this in
       let* response :=
         fetch {| url := baseUrl a +:+ "/" +:+ id_to_string (meetingId a) +:+ "/end";
                  method := "POST";
                  headers := [("Content-Type", "application/json")];
                  body := NoBody;
                  credentials := "include" |} outcome in
       if negb (ok response) then throw (EndError (status response))
       else
         let* data := response_json response in
         update_this (set_meetingId None) ;;;
         ret data)
      (λ error, throw error).

(** ** Sample hosts and states, used in the examples below *)

Definition env_ok : Env :=
  {| mic_result := Normal [Audio];
     sources_result := Normal ["screen:0:0"];
     desktop_result := λ _, Normal [Audio; Video];
     context_result := None;
     source_node_result := λ _, None;
     recorder_result := None;
     recorder_start_result := None |}.

Definition idle : State := (MeetingRecorder_new, Host_init).

(** * Definitions used to state the properties *)

(** The recorder once [cleanup] has cleared its references. *)
Definition released (r : MeetingRecorder) : MeetingRecorder :=
  set_isRecording false
    (set_mediaRecorder None
       (set_mixedStream None
          (set_audioContext None
             (set_systemStream None (set_micStream None r))))).

(** The ids of the tracks of a stream field ([null]: none). *)
Definition stream_tracks (o : option MediaStream) : gset nat :=
  match o with
  | Some s => track_ids (getTracks s)
  | None => ∅
  end.

(** The host once [cleanup] has run on recorder [r]: the tracks of its two
    streams stopped, its audio context closed. *)
Definition release_host (r : MeetingRecorder) (h : Host) : Host :=
  let h1 := set_live (live h ∖ stream_tracks (micStream r)
                             ∖ stream_tracks (systemStream r)) h in
  match audioContext r with
  | Some ctx => set_graphs (alter close_graph ctx (graphs h1)) h1
  | None => h1
  end.

(** Whether the five resource fields of the recorder are all [null]. *)
Definition nothing_acquired (r : MeetingRecorder) : bool :=
  bool_decide (micStream r = None ∧ systemStream r = None ∧
               audioContext r = None ∧ mixedStream r = None ∧
               mediaRecorder r = None).

(** [event.data.size > 0] *)
Definition non_empty (ev : Flush) : bool := bool_decide (0 < Blob_size ev.1).

(** The calls a registered callback receives for a list of flushes when the
    counter stands at [n]: one per non-empty flush, numbered [n+1], [n+2], ... *)
Fixpoint chunks_from (n : nat) (evs : list Flush) : list AudioChunk :=
  match evs with
  | [] => []
  | ev :: evs' =>
      if non_empty ev then
        {| payload := ev.1; chunk_sequence := S n; capturedAt := ev.2 |}
          :: chunks_from (S n) evs'
      else chunks_from n evs'
  end.

(** A state in which a callback is registered and nothing is being recorded,
    and the state a first [start] reaches from it. *)
Definition listening : State :=
  ({| mediaRecorder := None; audioContext := None; micStream := None;
      systemStream := None; mixedStream := None; audioChunks := [];
      sequence := 0; isRecording := false; onAudioChunk := true;
      onError := true; chunkInterval := 5000;
      mimeType := "audio/webm;codecs=opus" |}, Host_init).

Definition recording : State := (start env_ok Options_default listening).2.

(** [s !== null] *)
Definition non_null (o : option MediaStream) : bool :=
  match o with
  | Some _ => true
  | None => false
  end.

(** The host after [new AudioContext] and the connection of [valid]. *)
Definition mixed_graph (valid : list MediaStream) (h : Host) : Graph :=
  {| sampleRate := 16000;
     connected := stream_id <$> valid;
     destination := {| stream_id := S (fresh h);
                       getTracks := [ {| track_id := S (S (fresh h));
                                         kind := Audio |} ] |};
     closed := false |}.

(** Two captured audio streams and a host in which their tracks are live. *)
Definition stream_a : MediaStream :=
  {| stream_id := 1; getTracks := [ {| track_id := 0; kind := Audio |} ] |}.
Definition stream_b : MediaStream :=
  {| stream_id := 3; getTracks := [ {| track_id := 2; kind := Audio |} ] |}.
Definition two_captured : State :=
  (MeetingRecorder_new, set_live {[ 0; 2 ]} (set_fresh 4 Host_init)).

(** What the desktop capture of [getSystemAudioStream] hands out, when the
    method gets that far: the track kinds of the captured stream. *)
Definition desktop_capture (env : Env) : option (list TrackKind) :=
  match sources_result env with
  | Normal (source0 :: _) =>
      match desktop_result env source0 with
      | Normal kinds => Some kinds
      | Throw _ => None
      end
  | _ => None
  end.

(** Does a captured stream with tracks of these kinds have an audio track? *)
Definition has_audio (kinds : list TrackKind) : bool :=
  existsb (λ k, bool_decide (k = Audio)) kinds.

(** System audio is unavailable when the enumeration fails or is empty, when
    the desktop capture is refused, or when the captured stream has no audio
    track. *)
Definition system_audio_fails (env : Env) : bool :=
  match desktop_capture env with
  | Some kinds => negb (has_audio kinds)
  | None => true
  end.

(** A host that refuses the microphone and has no screen source. *)
Definition env_denied : Env :=
  {| mic_result := Throw (Error "Permission denied");
     sources_result := Normal [];
     desktop_result := λ _, Throw (Error "Permission denied");
     context_result := None;
     source_node_result := λ _, None;
     recorder_result := None;
     recorder_start_result := None |}.

(** A host whose desktop capture yields a video track and no audio track. *)
Definition env_silent_desktop : Env :=
  {| mic_result := Normal [Audio];
     sources_result := Normal ["screen:0:0"];
     desktop_result := λ _, Normal [Video];
     context_result := None;
     source_node_result := λ _, None;
     recorder_result := None;
     recorder_start_result := None |}.

(** Option records other than the default. *)
Definition no_source_requested : Options :=
  {| includeMic := false; includeSystem := false |}.
Definition system_only : Options :=
  {| includeMic := false; includeSystem := true |}.

(** The desktop capture hands out a stream without audio track. *)
Definition silent_capture (env : Env) : bool :=
  match desktop_capture env with
  | Some kinds => negb (has_audio kinds)
  | None => false
  end.

(** Capture tracks that are live in [s] were live in [s0] or belong to a
    stream the recorder holds. *)
Definition tracks_held (s0 s : State) : Prop :=
  live s.2 ⊆ live s0.2 ∪ stream_tracks (micStream s.1)
                       ∪ stream_tracks (systemStream s.1).

(** Audio contexts that are open in [s] were open in [s0] or are the one the
    recorder holds. *)
Definition graphs_held (s0 s : State) : Prop :=
  ∀ c g, graphs s.2 !! c = Some g → closed g = false →
    audioContext s.1 = Some c ∨
    ∃ g0, graphs s0.2 !! c = Some g0 ∧ closed g0 = false.

(** The requests [endMeeting] and [createMeeting] issue. *)
Definition end_request (a : MeetingAPI) : Request :=
  {| url := baseUrl a +:+ "/" +:+ id_to_string (meetingId a) +:+ "/end";
     method := "POST";
     headers := [("Content-Type", "application/json")];
     body := NoBody;
     credentials := "include" |}.

Definition create_request (a : MeetingAPI) (userId title : string) : Request :=
  {| url := baseUrl a +:+ "/create"; method := "POST";
     headers := [("Content-Type", "application/json")];
     body := JsonBody userId title;
     credentials := "include" |}.

(** A client with a session open, as [createMeeting] leaves it. *)
Definition in_session : ApiState :=
  ({| baseUrl := API_BASE_URL; meetingId := Some "m-123" |}, []).

(** Sample outcomes of [fetch]. *)
Definition server_error {D} : Completion (Response D) :=
  Normal {| ok := false; status := 500; json := Throw (Error "no body") |}.

Definition ok_response {D} (data : D) : Completion (Response D) :=
  Normal {| ok := true; status := 200; json := Normal data |}.

(** The answer of the service to a second creation. *)
Definition created : CreateData :=
  {| data_meetingId := "m-456"; data_status := "created" |}.

(** A new client. *)
Definition no_session : ApiState := (MeetingAPI_new API_BASE_URL, []).

(** ** The recorder and the client: events, failure causes, requests *)

(** The flushes, and the errors, among a list of events, in order. *)
Definition data_events (evs : list EncoderEvent) : list Flush :=
  omap (λ ev, match ev with
              | DataAvailable data now => Some (data, now)
              | ErrorEvent _ => None
              end) evs.
Definition error_events (evs : list EncoderEvent) : list JsError :=
  omap (λ ev, match ev with
              | DataAvailable _ _ => None
              | ErrorEvent error => Some error
              end) evs.

Definition caller_failing : Caller :=
  {| onAudioChunk_fn := λ _ _ _, throw (Error "upload failed");
     onError_fn := λ error, throw error |}.

Definition keeps_recorder (f : M unit) : Prop :=
  ∀ s, (f s).2.1 = s.1.
Definition keeps_media (f : M unit) : Prop :=
  ∀ s, live (f s).2.2 = live s.2 ∧ graphs (f s).2.2 = graphs s.2.

(** A caller whose callbacks only look on. *)
Definition bystander (caller : Caller) : Prop :=
  (∀ blob n t, keeps_recorder (onAudioChunk_fn caller blob n t) ∧
               keeps_media (onAudioChunk_fn caller blob n t)) ∧
  (∀ error, keeps_recorder (onError_fn caller error) ∧
            keeps_media (onError_fn caller error)).

(** What the methods of the recorder leave to the caller: the two callback
    fields, and the log of the calls made to the callbacks. *)
Definition callbacks (s : State) : bool * bool * list AudioChunk * list JsError :=
  (onAudioChunk s.1, onError s.1, emitted s.2, reported s.2).

(** A computation that calls no callback and assigns no callback field. *)
Definition calls_nothing {A} (m : M A) : Prop :=
  ∀ s, callbacks (m s).2 = callbacks s.



(** A host that refuses the encoder. *)
Definition env_unsupported : Env :=
  {| mic_result := Normal [Audio];
     sources_result := Normal ["screen:0:0"];
     desktop_result := λ _, Normal [Audio; Video];
     context_result := None;
     source_node_result := λ _, None;
     recorder_result := Some (Error "NotSupportedError");
     recorder_start_result := None |}.

(** The ways [start] can fail once past the already-recording guard: each
    disjunct names the statement that throws and the error it throws. *)
Definition start_error_cause (env : Env) (options : Options) (e : JsError) : Prop :=
  (∃ cause, includeMic options = true ∧ mic_result env = Throw cause ∧
            e = AcquisitionError cause) ∨
  (includeMic options = false ∧
   (includeSystem options = false ∨ system_audio_fails env = true) ∧
   e = NoSourceError) ∨
  context_result env = Some e ∨
  (∃ stream, source_node_result env stream = Some e) ∨
  recorder_result env = Some e ∨
  recorder_start_result env = Some e.

(** The request [submitAudio] issues. *)
Definition audio_request (beyond : N → string) (a : MeetingAPI)
    (audioBlob : Blob) (sequence : nat) (timestamp : N) : Request :=
  {| url := baseUrl a +:+ "/" +:+ id_to_string (meetingId a) +:+ "/audio";
     method := "POST"; headers := [];
     body := FormData
       [ ("audio", FileField audioBlob
                     ("audio_" +:+ Number_toString beyond (N.of_nat sequence)
                        +:+ ".webm"));
         ("sequence", TextField (Number_toString beyond (N.of_nat sequence)));
         ("timestamp", TextField (Number_toString beyond timestamp)) ];
     credentials := "include" |}.

(** A host conversion for the examples: it is consulted beyond
    [MAX_SAFE_INTEGER] only, where the examples do not go. *)
Definition beyond_sample (n : N) : string := "1e+21".

(** What a method makes of the outcome of its [fetch]: a rejection is
    rethrown, a non-2xx response becomes [failure status], otherwise the
    outcome of [response.json()]. *)
Definition settle {D} (failure : nat → JsError)
    (outcome : Completion (Response D)) : Completion D :=
  match outcome with
  | Throw e => Throw e
  | Normal response =>
      if ok response then json response else Throw (failure (status response))
  end.

(** ** [upload-to-oss.js]: the release upload script *)

(** A JavaScript string: its UTF-16 code units. *)
Definition JsString : Type := list N.

(** The code units of a literal written in ASCII. *)
Definition js (s : string) : JsString :=
  (λ c, Ascii.N_of_ascii c) <$> String.list_ascii_of_string s.

(** ECMAScript LineTerminator: LF, CR, U+2028, U+2029. *)
Definition is_line_terminator (c : N) : bool :=
  bool_decide (c ∈ [10; 13; 8232; 8233]%N).

(** What [\s] matches and [trim] strips: WhiteSpace (TAB, VT, FF, SP, NBSP,
    ZWNBSP and the space separators) and LineTerminator. *)
Definition is_white_space (c : N) : bool :=
  bool_decide (c ∈ [9; 10; 11; 12; 13; 32; 160; 5760; 8192; 8193; 8194; 8195;
                    8196; 8197; 8198; 8199; 8200; 8201; 8202; 8232; 8233;
                    8239; 8287; 12288; 65279]%N).

Fixpoint drop_while (f : N → bool) (s : JsString) : JsString :=
  match s with
  | c :: s' => if f c then drop_while f s' else s
  | [] => []
  end.

Fixpoint take_while (f : N → bool) (s : JsString) : JsString :=
  match s with
  | c :: s' => if f c then c :: take_while f s' else []
  | [] => []
  end.

(** [s.trim()] *)
Definition trim (s : JsString) : JsString :=
  reverse (drop_while is_white_space (reverse (drop_while is_white_space s))).

(** [s.startsWith(p)], [s.endsWith(p)], [s.includes(p)] *)
Fixpoint startsWith (p s : JsString) : bool :=
  match p, s with
  | [], _ => true
  | c :: p', d :: s' => bool_decide (c = d) && startsWith p' s'
  | _ :: _, [] => false
  end.
Definition endsWith (p s : JsString) : bool :=
  startsWith (reverse p) (reverse s).
Fixpoint includes (p s : JsString) : bool :=
  startsWith p s ||
  match s with
  | _ :: s' => includes p s'
  | [] => false
  end.

(** The regular expression [/^version:\s*(.+)$/m], piece by piece.  [(.+)$]
    at the head of [s]: [.] matches anything but a line terminator and [$]
    holds at a line terminator or at the end, so the group is the whole run
    up to there, and the run must not be empty. *)
Definition match_group (s : JsString) : option JsString :=
  match take_while (λ c, negb (is_line_terminator c)) s with
  | [] => None
  | run => Some run
  end.

(** [\s*(.+)$]: the star is greedy, and gives a character back when the rest
    does not match after it. *)
Fixpoint match_spaces (s : JsString) : option JsString :=
  match s with
  | c :: s' =>
      if is_white_space c then
        match match_spaces s' with
        | Some group => Some group
        | None => match_group s
        end
      else match_group s
  | [] => match_group []
  end.

(** The whole pattern tried at one position where [^] holds. *)
Definition match_here (s : JsString) : option JsString :=
  if startsWith (js "version:") s then match_spaces (drop 8 s) else None.

(** [content.match(re)]: the positions are tried from left to right; [^]
    holds at the start of the input and after a line terminator.  The result
    is the first group of the first match. *)
Fixpoint first_match (line_start : bool) (s : JsString) : option JsString :=
  match (if line_start then match_here s else None) with
  | Some group => Some group
  | None =>
      match s with
      | c :: s' => first_match (is_line_terminator c) s'
      | [] => None
      end
  end.

(** [parseVersion(content)]: [None] is [null]. *)
Definition parseVersion (content : JsString) : option JsString :=
  match first_match true content with
  | Some group => Some (trim group)
  | None => None
  end.

(** A JavaScript number, as far as comparisons see it: every double is NaN,
    an infinity or a rational; [+0] and [-0] are both [Finite 0]. *)
Inductive JsNumber :=
  | NaN
  | Infinity (negative : bool)
  | Finite (q : Qcanon.Qc).

(** [x < y] and [x > y] *)
Definition js_lt (x y : JsNumber) : bool :=
  match x, y with
  | Finite a, Finite b => bool_decide (Qcanon.Qclt a b)
  | Infinity true, Finite _ => true
  | Infinity true, Infinity false => true
  | Finite _, Infinity false => true
  | _, _ => false
  end.
Definition js_gt (x y : JsNumber) : bool := js_lt y x.

(** The numbers that are falsy: NaN and zero. *)
Definition falsy (x : JsNumber) : bool :=
  match x with
  | NaN => true
  | Finite q => bool_decide (q = Qc_of_Z 0)
  | Infinity _ => false
  end.

(** [x || 0], for [x] an array element or [undefined] ([None]) *)
Definition or_zero (x : option JsNumber) : JsNumber :=
  match x with
  | Some v => if falsy v then Finite (Qc_of_Z 0) else v
  | None => Finite (Qc_of_Z 0)
  end.

(** [s.split('.')] *)
Fixpoint split_dot (s : JsString) : list JsString :=
  match s with
  | [] => [[]]
  | c :: s' =>
      if bool_decide (c = 46%N) then [] :: split_dot s'
      else match split_dot s' with
           | part :: parts => (c :: part) :: parts
           | [] => [[c]]
           end
  end.

(** The loop of [compareVersion] from index [i] with [n] rounds left. *)
Fixpoint compare_from (pa pb : list JsNumber) (i n : nat) : Z :=
  match n with
  | O => 0
  | S n' =>
      let na := or_zero (pa !! i) in
      let nb := or_zero (pb !! i) in
      if js_gt na nb then 1
      else if js_lt na nb then -1
      else compare_from pa pb (S i) n'
  end.

(** [compareVersion(a, b)]; [Number] is the host conversion
    [Number(string)]. *)
Definition compareVersion (Number : JsString → JsNumber) (a b : JsString) : Z :=
  let pa := Number <$> split_dot a in
  let pb := Number <$> split_dot b in
  compare_from pa pb 0 (length pa `max` length pb).

(** A conversion that agrees with JavaScript's [Number] on the empty string
    (zero) and on strings of decimal digits short enough to be exact; every
    other string is given NaN here.  It serves in the examples only. *)
Definition digits_Number (s : JsString) : JsNumber :=
  if forallb (λ c, (48 <=? c)%N && (c <=? 57)%N) s then
    Finite (Qc_of_Z (Z.of_N (fold_left (λ a c, a * 10 + (c - 48))%N s 0%N)))
  else NaN.

(** The constants of the script. *)
Definition OSS_PREFIX : JsString := js "chatecnu-desktop/releases/".
Definition latest_yml : JsString := js "latest.yml".

(** [path.join(DIST_DIR, file)]: the entry [file] of the [dist] directory. *)
Record LocalPath := InDist { entry : JsString }.

(** The calls made on the OSS client. *)
Inductive OssCall :=
  | OssGet (key : JsString)
  | OssPut (key : JsString) (source : LocalPath).

(** What the file system answers: [fs.existsSync] and [fs.readFileSync] on
    [dist/latest.yml], [fs.readdirSync] on [dist], and the size that
    [fs.statSync] reports for an entry of [dist]. *)
Record Disk := {
  existsSync : bool;
  readFileSync : Completion JsString;
  readdirSync : Completion (list JsString);
  statSync : JsString → Completion N
}.

(** What the bucket answers: the content of the object read by [client.get],
    as a string, and the outcome of [client.put] for a key. *)
Record Bucket := {
  get_result : Completion JsString;
  put_result : JsString → option JsError
}.

(** The script runs over the log of its OSS calls, oldest first. *)
Abbreviation Script := (Eff (list OssCall)).

Definition host_call {Σ A} (outcome : Completion A) : Eff Σ A :=
  λ s, (outcome, s).

(** [await client.get(key)], then [result.content.toString()] *)
Definition client_get (bucket : Bucket) (key : JsString) : Script JsString :=
  λ calls, (get_result bucket, calls ++ [OssGet key]).

(** [await client.put(ossPath, localPath)] *)
Definition client_put (bucket : Bucket) (key : JsString) (source : LocalPath)
    : Script unit :=
  λ calls,
    (match put_result bucket key with
     | Some e => Throw e
     | None => Normal tt
     end, calls ++ [OssPut key source]).

(** Truthiness of a string or [null]. *)
Definition truthy_string (v : option JsString) : bool :=
  match v with
  | Some (_ :: _) => true
  | _ => false
  end.

(** The string an argument of [includes] is converted to. *)
Definition search_string (v : option JsString) : JsString :=
  match v with
  | Some s => s
  | None => js "null"
  end.

(** The filter of the version-aware [upload]. *)
Definition wanted (localVersion : option JsString) (f : JsString) : bool :=
  bool_decide (f = latest_yml) ||
  includes (search_string localVersion) f &&
    (endsWith (js ".exe") f || endsWith (js ".blockmap") f).

(** The filter of the other revision of [upload]. *)
Definition wanted_all (f : JsString) : bool :=
  bool_decide (f = latest_yml) || endsWith (js ".exe") f
    || endsWith (js ".exe.blockmap") f.

(** [upload()] (lines 44-96).  [compareVersion(localVersion, ossVersion)]
    with [localVersion] null throws a TypeError at [a.split];
    [Number] is the host conversion [Number(string)]. *)
Definition upload (Number : JsString → JsNumber) (disk : Disk) (bucket : Bucket)
    : Script unit :=
  if negb (existsSync disk) then ret tt
  else
    let* localContent := host_call (readFileSync disk) in
    let localVersion := parseVersion localContent in
    let* ossVersion :=
      try_catch
        (let* content := client_get bucket (OSS_PREFIX ++ latest_yml) in
         ret (parseVersion content))
        (λ e, ret None) in
    let* not_newer :=   (* ossVersion && compareVersion(...) <= 0 *)
      match ossVersion with
      | Some (c :: b) =>
          match localVersion with
          | Some a =>
              ret (bool_decide (compareVersion Number a (c :: b) ≤ 0)%Z)
          | None => throw TypeError
          end
      | _ => ret false
      end in
    if not_newer then ret tt
    else
      let* names := host_call (readdirSync disk) in
      let files := List.filter (wanted localVersion) names in
      forEach (λ file,
        let localPath := InDist file in
        let ossPath := OSS_PREFIX ++ file in
        let* size := host_call (statSync disk file) in
        try_catch (client_put bucket ossPath localPath) (λ err, ret tt))
        files.

(** [upload()] of the other revision of the script (lines 125-159). *)
Definition upload_all (disk : Disk) (bucket : Bucket) : Script unit :=
  let* names := host_call (readdirSync disk) in
  let files := List.filter wanted_all names in
  if bool_decide (length files = 0) then ret tt
  else
    forEach (λ file,
      let localPath := InDist file in
      let ossPath := OSS_PREFIX ++ file in
      try_catch
        (let* size := host_call (statSync disk file) in
         client_put bucket ossPath localPath)
        (λ err, ret tt))
      files.

(** The call that uploads the entry [file] of [dist]. *)
Definition put_call (file : JsString) : OssCall :=
  OssPut (OSS_PREFIX ++ file) (InDist file).

(** The body of the loop of the version-aware [upload], and that of the
    other revision, on one entry. *)
Definition put_entry (disk : Disk) (bucket : Bucket) (file : JsString)
    : Script unit :=
  let* size := host_call (statSync disk file) in
  try_catch (client_put bucket (OSS_PREFIX ++ file) (InDist file))
    (λ err, ret tt).
Definition put_entry_guarded (disk : Disk) (bucket : Bucket) (file : JsString)
    : Script unit :=
  try_catch
    (let* size := host_call (statSync disk file) in
     client_put bucket (OSS_PREFIX ++ file) (InDist file))
    (λ err, ret tt).

(** The entries whose size [statSync] reports. *)
Definition readable (disk : Disk) (f : JsString) : bool :=
  match statSync disk f with
  | Normal _ => true
  | Throw _ => false
  end.

(** The version read from the bucket: [null] when [client.get] fails or the
    object has no version line. *)
Definition remote_version (bucket : Bucket) : option JsString :=
  match get_result bucket with
  | Normal content => parseVersion content
  | Throw _ => None
  end.

(** The second half of the version-aware [upload]: list [dist] and put the
    wanted entries. *)
Definition upload_files (disk : Disk) (bucket : Bucket)
    (localVersion : option JsString) : Script unit :=
  let* names := host_call (readdirSync disk) in
  forEach (put_entry disk bucket) (List.filter (wanted localVersion) names).

(** The names the filters let through, whatever the version. *)
Definition release_name (f : JsString) : Prop :=
  f = latest_yml ∨ endsWith (js ".exe") f = true
    ∨ endsWith (js ".blockmap") f = true.

(** Sample file systems and buckets. *)
Definition disk_1_3 : Disk :=
  {| existsSync := true;
     readFileSync := Normal (js "version: 1.3.0" ++ [10]%N ++ js "path: app-1.3.0.exe");
     readdirSync := Normal [ js "app-1.2.0.exe"; js "app-1.3.0.exe";
                             js "app-1.3.0.exe.blockmap"; js "latest.yml";
                             js "builder-debug.yml" ];
     statSync := λ _, Normal 1048576%N |}.

Definition bucket_1_2 : Bucket :=
  {| get_result := Normal (js "version: 1.2.0");
     put_result := λ _, Some (Error "RequestTimeout") |}.

Definition bucket_1_3 : Bucket :=
  {| get_result := Normal (js "version: 1.3.0");
     put_result := λ _, None |}.

(** A file system where [latest.yml] has no version line, and one where the
    installer cannot be examined. *)
Definition disk_no_version : Disk :=
  {| existsSync := true;
     readFileSync := Normal (js "path: app.exe");
     readdirSync := Normal [ js "latest.yml" ];
     statSync := λ _, Normal 0%N |}.

Definition disk_locked : Disk :=
  {| existsSync := true;
     readFileSync := Normal (js "version: 1.3.0");
     readdirSync := Normal [ js "app-1.3.0.exe"; js "latest.yml" ];
     statSync := λ f, if bool_decide (f = latest_yml) then Normal 100%N
                      else Throw (Error "EBUSY") |}.

(** The local version is newer than the one in the bucket, or the bucket has
    none. *)
Definition newer (Number : JsString → JsNumber) (localVersion : option JsString)
    (bucket : Bucket) : Prop :=
  truthy_string (remote_version bucket) = false ∨
  ∃ a c b, localVersion = Some a ∧ remote_version bucket = Some (c :: b) ∧
           (0 < compareVersion Number a (c :: b))%Z.

(** The log after a run extends [calls] by at most one read of the remote
    [latest.yml], then uploads of release files of [dist] under their own
    names. *)
Definition release_calls (calls : list OssCall)
    (result : Completion unit * list OssCall) : Prop :=
  ∃ gets done,
    result.2 = calls ++ gets ++ (put_call <$> done) ∧
    (gets = [] ∨ gets = [OssGet (OSS_PREFIX ++ latest_yml)]) ∧
    Forall release_name done.

(** A [dist] directory without [latest.yml]. *)
Definition disk_empty : Disk :=
  {| existsSync := false;
     readFileSync := Throw (Error "ENOENT");
     readdirSync := Normal [];
     statSync := λ _, Throw (Error "ENOENT") |}.

(** * Properties *)

(** ** Stepping through method bodies *)

Lemma bind_normal {Σ A B} (m : Eff Σ A) (k : A → Eff Σ B) s a s' :
  m s = (Normal a, s') → bind m k s = k a s'.
Proof. intros H. unfold bind. by rewrite H. Qed.

Lemma bind_throw {Σ A B} (m : Eff Σ A) (k : A → Eff Σ B) s e s' :
  m s = (Throw e, s') → bind m k s = (Throw e, s').
Proof. intros H. unfold bind. by rewrite H. Qed.

Lemma set_live_id (h : Host) : set_live (live h) h = h.
Proof. by destruct h. Qed.

Lemma track_ids_cons t ts : track_ids (t :: ts) = {[ track_id t ]} ∪ track_ids ts.
Proof. done. Qed.

(** Stopping every track of a list removes exactly their ids from [live]. *)
Lemma forEach_track_stop (ts : list Track) (r : MeetingRecorder) (h : Host) :
  forEach track_stop ts (r, h) =
    (Normal tt, (r, set_live (live h ∖ track_ids ts) h)).
Proof.
  revert h. induction ts as [|t ts IH]; intros h; simpl.
  - unfold ret, track_ids. simpl. rewrite difference_empty_L.
    by rewrite set_live_id.
  - unfold bind at 1. unfold track_stop at 1, update_host. simpl.
    rewrite IH. unfold set_live. simpl. do 3 f_equal.
    rewrite track_ids_cons. by rewrite difference_difference_l_L.
Qed.

(** ** [cleanup] in closed form *)

Lemma cleanup_closed_form (r : MeetingRecorder) (h : Host) :
  cleanup (r, h) = (Normal tt, (released r, release_host r h)).
Proof.
  unfold cleanup, released, release_host.
  destruct r as [enc ctx mic sys mixed chunks n rec cb1 cb2 iv mt].
  destruct h as [fr lv gr em rp].
  destruct mic as [mic|], sys as [sys|], ctx as [ctx|];
    unfold bind, this, update_this, ret, context_close, update_host; simpl;
    rewrite ?forEach_track_stop; simpl;
    rewrite ?forEach_track_stop; simpl;
    unfold set_live, set_graphs, stream_tracks; simpl;
    rewrite ?difference_empty_L; reflexivity.
Qed.

Lemma released_idem (r : MeetingRecorder) : released (released r) = released r.
Proof. done. Qed.

Lemma release_host_released (r : MeetingRecorder) (h : Host) :
  release_host (released r) h = h.
Proof.
  unfold release_host, released; simpl.
  rewrite !difference_empty_L. apply set_live_id.
Qed.

Lemma released_nothing_acquired (r : MeetingRecorder) :
  nothing_acquired r = true → released r = set_isRecording false r.
Proof.
  intros H. apply bool_decide_eq_true_1 in H as (?&?&?&?&?).
  destruct r; simpl in *; by subst.
Qed.

Lemma release_host_nothing_acquired (r : MeetingRecorder) (h : Host) :
  nothing_acquired r = true → release_host r h = h.
Proof.
  intros H. apply bool_decide_eq_true_1 in H as (Hm&Hs&Hc&_&_).
  unfold release_host. rewrite Hm, Hs, Hc. simpl.
  rewrite !difference_empty_L. apply set_live_id.
Qed.

(** ** The emission handler *)


Lemma non_empty_cons (ev : Flush) (evs : list Flush) :
  length (filter non_empty (ev :: evs)) =
    length (filter non_empty [ev]) + length (filter non_empty evs).
Proof.
  change (ev :: evs) with ([ev] ++ evs). by rewrite filter_app, length_app.
Qed.

Lemma chunks_from_cons (n : nat) (ev : Flush) (evs : list Flush) :
  chunks_from n (ev :: evs) =
    chunks_from n [ev] ++ chunks_from (n + length (filter non_empty [ev])) evs.
Proof.
  cbn [chunks_from]. rewrite filter_cons, filter_nil.
  destruct (non_empty ev); simpl.
  - by rewrite Nat.add_1_r.
  - by rewrite Nat.add_0_r.
Qed.

Lemma ondataavailable_empty (caller : Caller) (data : Blob) (now : N) (s : State) :
  Blob_size data = 0 → ondataavailable caller data now s = (Normal tt, s).
Proof.
  intros H. unfold ondataavailable. rewrite decide_False by lia. done.
Qed.

(** On a non-empty flush the counter is incremented first; the callback, when
    one is registered, is then called with the new value. *)
Lemma ondataavailable_non_empty (caller : Caller) (data : Blob) (now : N)
    (r : MeetingRecorder) (h : Host) :
  0 < Blob_size data →
  ondataavailable caller data now (r, h) =
    if onAudioChunk r then
      call_onAudioChunk caller data (S (sequence r)) now
        (set_sequence (S (sequence r)) r, h)
    else (Normal tt, (set_sequence (S (sequence r)) r, h)).
Proof.
  intros H. unfold ondataavailable. rewrite decide_True by done.
  unfold bind at 1, update_this at 1. cbn beta iota. cbn [fst snd].
  unfold bind at 1, this at 1. cbn beta iota. cbn [fst snd].
  cbn [onAudioChunk sequence set_sequence].
  by destruct (onAudioChunk r).
Qed.

(** A call of the chunk callback: the call is logged, then the function
    runs on the state with the call logged, and cannot change the logs. *)
Lemma call_onAudioChunk_run (caller : Caller) (blob : Blob) (n : nat) (t : N)
    (r : MeetingRecorder) (h : Host) :
  let logged := set_emitted (emitted h ++ [ {| payload := blob;
                                               chunk_sequence := n;
                                               capturedAt := t |} ]) h in
  let out := onAudioChunk_fn caller blob n t (r, logged) in
  call_onAudioChunk caller blob n t (r, h) =
    (out.1, (out.2.1,
             set_reported (reported h) (set_emitted (emitted logged) out.2.2))).
Proof.
  intros logged out. unfold call_onAudioChunk, bind, update_host, call_out.
  cbn beta iota. cbn [fst snd]. fold logged. fold out.
  by destruct out as [c [r' h']].
Qed.

Lemma call_onError_run (caller : Caller) (error : JsError)
    (r : MeetingRecorder) (h : Host) :
  let logged := set_reported (reported h ++ [error]) h in
  let out := onError_fn caller error (r, logged) in
  call_onError caller error (r, h) =
    (out.1, (out.2.1,
             set_reported (reported logged) (set_emitted (emitted h) out.2.2))).
Proof.
  intros logged out. unfold call_onError, bind, update_host, call_out.
  cbn beta iota. cbn [fst snd]. fold logged. fold out.
  by destruct out as [c [r' h']].
Qed.

(** The host gets every event through: an exception of the handler does not
    reach the next event. *)
Lemma dispatch_returns (caller : Caller) (ev : EncoderEvent) (s : State) :
  ∃ s', dispatch caller ev s = (Normal tt, s').
Proof.
  unfold dispatch, try_catch.
  destruct (deliver caller ev s) as [[[]|e] s']; by eexists.
Qed.

Lemma dispatch_all_returns (caller : Caller) (evs : list EncoderEvent) (s : State) :
  ∃ s', forEach (dispatch caller) evs s = (Normal tt, s').
Proof.
  revert s. induction evs as [|ev evs IH]; intros s; [by eexists|].
  cbn [forEach]. destruct (dispatch_returns caller ev s) as [s1 H1].
  erewrite bind_normal by exact H1. apply IH.
Qed.



(** ** What a successful [start] leaves behind *)

Lemma bind_inv_normal {Σ A B} (m : Eff Σ A) (k : A → Eff Σ B) s b s' :
  bind m k s = (Normal b, s') →
  ∃ a s1, m s = (Normal a, s1) ∧ k a s1 = (Normal b, s').
Proof.
  unfold bind. destruct (m s) as [[a|e] s1]; [eauto | discriminate].
Qed.

Lemma try_catch_inv_normal {Σ A} (body : Eff Σ A) handler s a s' :
  try_catch body handler s = (Normal a, s') →
  body s = (Normal a, s') ∨
  ∃ e s1, body s = (Throw e, s1) ∧ handler e s1 = (Normal a, s').
Proof.
  unfold try_catch. destruct (body s) as [[a0|e] s1]; [intros; by left|].
  intros H. right. eauto.
Qed.

Lemma cleanup_then_throw {A} (e : JsError) (s : State) :
  (cleanup ;;; throw (A:=A) e) s = (Throw e, (released s.1, release_host s.1 s.2)).
Proof.
  destruct s as [r h]. erewrite bind_normal by apply cleanup_closed_form. done.
Qed.

Tactic Notation "inv_bind" hyp(H) "as" ident(a) ident(s1) ident(Hm) :=
  apply bind_inv_normal in H as (a & s1 & Hm & H).

Ltac inv_update H :=
  unfold update_this, update_host, this, host, ret in H; simpl in H;
  injection H as <- <-.

Lemma start_success_inv env options (s s' : State) (b : bool) :
  start env options s = (Normal b, s') →
  b = true ∧ isRecording s.1 = false ∧ sequence s'.1 = 0 ∧
  audioChunks s'.1 = [] ∧ isRecording s'.1 = true ∧
  ∃ mixed,
    mixedStream s'.1 = Some mixed ∧
    mediaRecorder s'.1 =
      Some {| enc_stream := mixed; enc_mimeType := mimeType s'.1;
              enc_audioBitsPerSecond := 64000;
              enc_timeslice := Some (chunkInterval s'.1) |}.
Proof.
  unfold start. intros H. inv_bind H as r0 s0 Hm. inv_update Hm.
  destruct (isRecording s.1) eqn:Hrec; [discriminate|].
  apply try_catch_inv_normal in H as [H|(e & s1 & _ & H)]; last first.
  { by rewrite cleanup_then_throw in H. }
  inv_bind H as streams1 s1 Hmic. clear Hmic.
  inv_bind H as streams2 s2 Hsys. clear Hsys.
  inv_bind H as mixed s3 Hmix. clear Hmix.
  inv_bind H as u1 s4 Hm. inv_update Hm.
  inv_bind H as r1 s5 Hm. inv_update Hm.
  inv_bind H as enc s6 Hm. unfold new_MediaRecorder in Hm.
  destruct (recorder_result env); [discriminate|]. inv_update Hm.
  inv_bind H as u2 s7 Hm. inv_update Hm.
  inv_bind H as u3 s8 Hm. inv_update Hm.
  inv_bind H as u4 s9 Hm. inv_update Hm.
  inv_bind H as r2 s10 Hm. inv_update Hm.
  inv_bind H as enc' s11 Hm. unfold MediaRecorder_start in Hm.
  destruct (recorder_start_result env); [discriminate|]. inv_update Hm.
  inv_bind H as u5 s12 Hm. inv_update Hm.
  inv_bind H as u6 s13 Hm. inv_update Hm.
  inv_update H. simpl. eauto 10.
Qed.

(** ** The recorder: claims *)

(** C2. While a recording is in progress, [start] throws
    AlreadyRecordingError at once and leaves the recorder (streams, encoder,
    counter, flag) and the host exactly as they were. *)
Theorem start_while_recording env options (s : State) :
  isRecording s.1 = true →
  start env options s = (Throw AlreadyRecordingError, s).
Proof.
  intros H. unfold start, bind, this. by rewrite H.
Qed.

Lemma start_while_recording_witness :
  start env_ok Options_default recording = (Throw AlreadyRecordingError, recording).
Proof.
  apply start_while_recording. vm_compute. reflexivity.
Defined.

(** C9. [cleanup] never throws; running it a second time changes nothing
    more; and when the five resource fields are already null it leaves the
    host untouched and the recorder as it was, up to the recording flag it
    sets to false: a no-op on an idle recorder. *)
Theorem cleanup_idempotent (s : State) :
  ∃ s1, cleanup s = (Normal tt, s1) ∧
        cleanup s1 = (Normal tt, s1) ∧
        (nothing_acquired s.1 = true →
           s1 = (set_isRecording false s.1, s.2) ∧
           (isRecording s.1 = false → s1 = s)).
Proof.
  destruct s as [r h]. eexists. split; [apply cleanup_closed_form|].
  split.
  - rewrite cleanup_closed_form.
    by rewrite released_idem, release_host_released.
  - intros Hnull. simpl.
    rewrite released_nothing_acquired, release_host_nothing_acquired by done.
    split; [done|]. intros Hidle. destruct r; simpl in *; by subst.
Qed.

Lemma cleanup_idempotent_witness :
  cleanup idle = (Normal tt, idle) ∧
  cleanup (cleanup recording).2 = (Normal tt, (cleanup recording).2).
Proof.
  split.
  - destruct (cleanup_idempotent idle) as (s1 & H1 & _ & Hnull).
    destruct Hnull as [_ Hidle]; [vm_compute; reflexivity|].
    rewrite H1. f_equal. apply Hidle. reflexivity.
  - destruct (cleanup_idempotent recording) as (s1 & H1 & H2 & _).
    rewrite H1. simpl. exact H2.
Defined.

(** ** Mixing *)

Lemma connect_all_nil (g : Graph) : connect_all [] g = g.
Proof. destruct g. unfold connect_all. simpl. by rewrite app_nil_r. Qed.

Lemma connect_all_cons (sid : nat) (ids : list nat) (g : Graph) :
  connect_all ids (connect_all [sid] g) = connect_all (sid :: ids) g.
Proof. unfold connect_all. simpl. by rewrite <- app_assoc. Qed.

Lemma set_graphs_id (h : Host) : set_graphs (graphs h) h = h.
Proof. by destruct h. Qed.

(** When the host accepts every stream, the loop of [mixAudioStreams]
    connects them all, in order, to the destination of the context. *)
Lemma forEach_connect_source env (ctx : nat) (l : list MediaStream)
    (r : MeetingRecorder) (h : Host) (g : Graph) :
  Forall (λ s, source_node_result env s = None) l →
  graphs h !! ctx = Some g →
  forEach (connect_source env ctx) l (r, h) =
    (Normal tt,
     (r, set_graphs (<[ctx := connect_all (stream_id <$> l) g]> (graphs h)) h)).
Proof.
  intros Hall. revert h g. induction Hall as [|s l Hs Hl IH]; intros h g Hg.
  - simpl. rewrite connect_all_nil, insert_id by done.
    by rewrite set_graphs_id.
  - cbn [forEach]. unfold bind at 1. unfold connect_source at 1.
    rewrite Hs. unfold update_host. cbn [fst snd].
    erewrite IH; last first.
    { simpl. rewrite lookup_alter_eq, Hg. done. }
    simpl. rewrite connect_all_cons, insert_alter_eq. done.
Qed.

(** C5. [mixAudioStreams] keeps the non-null streams, in order.  With none
    left it throws NoSourceError; with exactly one it returns that stream and
    touches neither the recorder nor the host (no audio context); with two or
    more, on a host that accepts the calls, it creates one context at
    16000 Hz, stores it in [audioContext], connects every stream to the one
    destination and returns the destination's stream. *)
Theorem mixAudioStreams_spec env (streams : list (option MediaStream))
    (r : MeetingRecorder) (h : Host) :
  let valid := filter_non_null streams in
  Some <$> valid = List.filter non_null streams ∧
  (valid = [] →
     mixAudioStreams env streams (r, h) = (Throw NoSourceError, (r, h))) ∧
  (∀ only, valid = [only] →
     mixAudioStreams env streams (r, h) = (Normal only, (r, h))) ∧
  ((2 ≤ length valid)%nat →
   context_result env = None →
   Forall (λ s, source_node_result env s = None) valid →
     let g := mixed_graph valid h in
     mixAudioStreams env streams (r, h) =
       (Normal (destination g),
        (set_audioContext (Some (fresh h)) r,
         set_graphs (<[fresh h := g]> (graphs h))
           (set_fresh (S (S (S (fresh h)))) h)))).
Proof.
  intros valid. split; [|split; [|split]].
  - unfold valid, filter_non_null.
    induction streams as [|[s0|] streams IH]; simpl; [done| |done].
    by rewrite <- IH.
  - intros Hv. unfold mixAudioStreams. fold valid. by rewrite Hv.
  - intros only Hv. unfold mixAudioStreams. fold valid. by rewrite Hv.
  - intros Hlen Hctx Hsrc g. unfold mixAudioStreams. fold valid.
    destruct valid as [|s1 [|s2 rest]] eqn:Hv; simpl in Hlen; try lia.
    unfold bind at 1. unfold new_AudioContext. rewrite Hctx. cbn [fst snd].
    unfold bind at 1. unfold update_this at 1. cbn [fst snd].
    unfold bind at 1. unfold createMediaStreamDestination, bind, host.
    cbn [fst snd]. unfold set_graphs at 1. cbn [graphs].
    rewrite lookup_insert_eq. unfold ret at 1.
    unfold bind.
    erewrite forEach_connect_source; [|done|]; last first.
    { simpl. apply lookup_insert_eq. }
    unfold ret. simpl. rewrite insert_insert_eq. done.
Qed.

Lemma mixAudioStreams_spec_witness :
  mixAudioStreams env_ok [Some stream_a; None] two_captured
    = (Normal stream_a, two_captured) ∧
  (mixAudioStreams env_ok [Some stream_a; None; Some stream_b] two_captured).1
    = Normal {| stream_id := 5;
                getTracks := [ {| track_id := 6; kind := Audio |} ] |}.
Proof.
  destruct (mixAudioStreams_spec env_ok [Some stream_a; None]
              two_captured.1 two_captured.2) as (_ & _ & Hone & _).
  destruct (mixAudioStreams_spec env_ok [Some stream_a; None; Some stream_b]
              two_captured.1 two_captured.2) as (_ & _ & _ & Hmany).
  split.
  - apply Hone. reflexivity.
  - change two_captured with (two_captured.1, two_captured.2).
    rewrite Hmany.
    + reflexivity.
    + simpl. lia.
    + reflexivity.
    + repeat constructor.
Defined.

(** ** Acquisition *)

Lemma audio_tracks_of_capture (i : nat) (kinds : list TrackKind) :
  length (List.filter is_audio (mk_tracks i kinds)) = 0 ↔ has_audio kinds = false.
Proof.
  revert i. induction kinds as [|[] kinds IH]; intros i; simpl; [done| |].
  - split; [lia|discriminate].
  - apply IH.
Qed.

Lemma getMicrophoneStream_ok env kinds (s : State) :
  mic_result env = Normal kinds →
  getMicrophoneStream env s = capture kinds s.
Proof.
  intros H. unfold getMicrophoneStream, try_catch, bind, getUserMedia.
  rewrite H. done.
Qed.

Lemma getMicrophoneStream_fails env cause (s : State) :
  mic_result env = Throw cause →
  getMicrophoneStream env s = (Throw (AcquisitionError cause), s).
Proof.
  intros H. unfold getMicrophoneStream, try_catch, bind, getUserMedia.
  rewrite H. done.
Qed.

(** The three ways out of [getSystemAudioStream]; none of them throws. *)
Lemma getSystemAudioStream_not_captured env (s : State) :
  desktop_capture env = None →
  getSystemAudioStream env s = (Normal None, s).
Proof.
  unfold desktop_capture, getSystemAudioStream, try_catch, bind, getSources.
  destruct (sources_result env) as [[|source0 ?]|e];
    unfold ret, throw; cbn beta iota; try done.
  unfold getUserMedia, throw.
  by destruct (desktop_result env source0).
Qed.

Lemma getSystemAudioStream_no_audio env kinds (s : State) :
  desktop_capture env = Some kinds → has_audio kinds = false →
  getSystemAudioStream env s = (Normal None, (capture kinds s).2).
Proof.
  unfold desktop_capture, getSystemAudioStream, try_catch, bind, getSources.
  destruct (sources_result env) as [[|source0 ?]|e]; try done.
  unfold getUserMedia. unfold ret at 1. cbn beta iota.
  destruct (desktop_result env source0) as [kinds'|]; [|done].
  intros [= ->] Hno. unfold capture at 1. cbn beta iota.
  unfold getAudioTracks. cbn [getTracks].
  rewrite decide_True by (by apply audio_tracks_of_capture). done.
Qed.

Lemma getSystemAudioStream_audio env kinds (s : State) :
  desktop_capture env = Some kinds → has_audio kinds = true →
  let h1 := (capture kinds s).2.2 in
  let ts := mk_tracks (fresh s.2) kinds in
  getSystemAudioStream env s =
    (Normal (Some {| stream_id := fresh h1;
                     getTracks := List.filter is_audio ts |}),
     (s.1, set_fresh (S (fresh h1))
             (set_live (live h1 ∖ track_ids (List.filter is_video ts)) h1))).
Proof.
  unfold desktop_capture, getSystemAudioStream, try_catch, bind, getSources.
  destruct (sources_result env) as [[|source0 ?]|e]; try done.
  unfold getUserMedia. unfold ret at 1. cbn beta iota.
  destruct (desktop_result env source0) as [kinds'|]; [|done].
  intros [= ->] Hyes. unfold capture at 1. cbn beta iota.
  unfold getAudioTracks, getVideoTracks. cbn [getTracks].
  rewrite decide_False; last first.
  { rewrite audio_tracks_of_capture. by rewrite Hyes. }
  rewrite forEach_track_stop. done.
Qed.

(** ** Failures of [start] *)

Lemma try_catch_throw {Σ A} (body : Eff Σ A) handler s e s1 :
  body s = (Throw e, s1) → try_catch body handler s = handler e s1.
Proof. intros H. unfold try_catch. by rewrite H. Qed.

(** Every failure of [start] past the guard goes through [cleanup]. *)
Lemma start_throw_released env options (s s' : State) e :
  isRecording s.1 = false →
  start env options s = (Throw e, s') →
  ∃ s1, s' = (released s1.1, release_host s1.1 s1.2).
Proof.
  intros Hrec. unfold start, bind at 1, this at 1. cbn beta iota.
  rewrite Hrec. unfold try_catch.
  match goal with |- context [let (c, s') := ?b s in _] =>
    destruct (b s) as [[a|e'] s1] end; [discriminate|].
  rewrite cleanup_then_throw. intros [= _ <-]. eauto.
Qed.

(** The system-audio step of [start] when system audio is not requested or
    not available: the stream list is left as it was. *)
Lemma no_system_audio env options (streams : list (option MediaStream)) (s : State) :
  includeSystem options = false ∨ system_audio_fails env = true →
  ∃ h',
    (if includeSystem options then
       let* sys := getSystemAudioStream env in
       update_this (set_systemStream sys) ;;;
       match sys with
       | Some s => ret (streams ++ [Some s])
       | None => ret streams
       end
     else ret streams) s
    = (Normal streams,
       ((if includeSystem options then set_systemStream None s.1 else s.1), h')).
Proof.
  destruct s as [r h]. intros [->|Hfail]; [by eexists|].
  destruct (includeSystem options); [|by eexists].
  unfold system_audio_fails in Hfail.
  destruct (desktop_capture env) as [kinds|] eqn:Hcap.
  - erewrite bind_normal; last first.
    { apply getSystemAudioStream_no_audio; [done|].
      by destruct (has_audio kinds). }
    by eexists.
  - erewrite bind_normal by (by apply getSystemAudioStream_not_captured).
    by eexists.
Qed.

Lemma AcquisitionError_not_NoSourceError cause :
  AcquisitionError cause ≠ NoSourceError.
Proof. unfold AcquisitionError, NoSourceError. simpl. discriminate. Qed.

Lemma start_no_source env options (s : State) :
  isRecording s.1 = false →
  includeMic options = false →
  includeSystem options = false ∨ system_audio_fails env = true →
  ∃ s', start env options s = (Throw NoSourceError, s') ∧
        isRecording s'.1 = false.
Proof.
  intros Hrec Hmic Hsys.
  destruct (no_system_audio env options [] s Hsys) as [h' Hh'].
  unfold start, bind at 1, this at 1. cbn beta iota. rewrite Hrec, Hmic.
  erewrite try_catch_throw; last first.
  { cbn zeta. unfold bind at 1, ret at 1. cbn beta iota.
    erewrite bind_normal by exact Hh'.
    apply bind_throw. reflexivity. }
  rewrite cleanup_then_throw. eauto.
Qed.

Lemma start_microphone_fails env options (s : State) cause :
  isRecording s.1 = false →
  includeMic options = true → mic_result env = Throw cause →
  ∃ s', start env options s = (Throw (AcquisitionError cause), s') ∧
        isRecording s'.1 = false.
Proof.
  intros Hrec Hmic Hfail.
  unfold start, bind at 1, this at 1. cbn beta iota. rewrite Hrec, Hmic.
  erewrite try_catch_throw; last first.
  { cbn zeta. apply bind_throw. apply bind_throw.
    by apply getMicrophoneStream_fails. }
  rewrite cleanup_then_throw. eauto.
Qed.

(** C3, as the code has it.  From a recorder that is not recording, [start]
    with the microphone not requested, and system audio either not requested
    or failing, throws NoSourceError and leaves the recording flag false.
    When the microphone is requested and its acquisition fails, [start]
    throws the microphone acquisition error instead, whatever happens to
    system audio, and also leaves the flag false. *)
Theorem start_without_source env options (s : State) :
  isRecording s.1 = false →
  (includeMic options = false →
   includeSystem options = false ∨ system_audio_fails env = true →
   ∃ s', start env options s = (Throw NoSourceError, s') ∧
         isRecording s'.1 = false) ∧
  (∀ cause, includeMic options = true → mic_result env = Throw cause →
   ∃ s', start env options s = (Throw (AcquisitionError cause), s') ∧
         isRecording s'.1 = false ∧
         AcquisitionError cause ≠ NoSourceError).
Proof.
  intros Hrec. split.
  - by apply start_no_source.
  - intros cause Hmic Hfail.
    destruct (start_microphone_fails env options s cause) as (s' & ? & ?);
      [done..|].
    eauto using AcquisitionError_not_NoSourceError.
Qed.

Lemma start_without_source_witness :
  (start env_ok no_source_requested idle).1 = Throw NoSourceError ∧
  (start env_silent_desktop system_only idle).1 = Throw NoSourceError ∧
  (start env_denied Options_default idle).1
    = Throw (AcquisitionError (Error "Permission denied")).
Proof.
  destruct (start_without_source env_ok no_source_requested idle eq_refl)
    as [H1 _].
  destruct (start_without_source env_silent_desktop system_only idle eq_refl)
    as [H2 _].
  destruct (start_without_source env_denied Options_default idle eq_refl)
    as [_ H3].
  destruct H1 as (s1 & -> & _); [reflexivity|by left|].
  destruct H2 as (s2 & -> & _); [reflexivity|by right|].
  destruct (H3 (Error "Permission denied")) as (s3 & -> & _); done.
Defined.

(** C3 as stated fails when both acquisitions are requested and both fail:
    the failure is the microphone acquisition error, not NoSourceError. *)
Lemma both_acquisitions_failing_counterexample :
  includeMic Options_default = true ∧ includeSystem Options_default = true ∧
  mic_result env_denied = Throw (Error "Permission denied") ∧
  system_audio_fails env_denied = true ∧
  ¬ ∃ s', start env_denied Options_default idle = (Throw NoSourceError, s') ∧
          isRecording s'.1 = false.
Proof.
  repeat split; try reflexivity.
  intros (s' & H & _).
  destruct (start_microphone_fails env_denied Options_default idle
              (Error "Permission denied") eq_refl eq_refl eq_refl)
    as (s1 & Hs1 & _).
  rewrite Hs1 in H. injection H as H _.
  by apply (AcquisitionError_not_NoSourceError (Error "Permission denied")).
Qed.

(** C4. From a recorder that is not recording: a failing microphone
    acquisition makes [start] throw the acquisition error; a failing
    system-audio acquisition (no screen source, refused capture, or a stream
    without audio track) makes [getSystemAudioStream] return null without
    throwing; and with the microphone acquired and the encoder accepted,
    [start] then succeeds on the microphone stream alone, passed through
    unmixed. *)
Theorem acquisition_failures env options (s : State) :
  isRecording s.1 = false →
  (∀ cause, includeMic options = true → mic_result env = Throw cause →
     ∃ s', start env options s = (Throw (AcquisitionError cause), s')) ∧
  (∀ st, system_audio_fails env = true →
     ∃ h', getSystemAudioStream env st = (Normal None, (st.1, h'))) ∧
  (∀ kinds, includeMic options = true → mic_result env = Normal kinds →
     system_audio_fails env = true →
     recorder_result env = None → recorder_start_result env = None →
     ∃ mic s', start env options s = (Normal true, s') ∧
               getTracks mic = mk_tracks (fresh s.2) kinds ∧
               micStream s'.1 = Some mic ∧
               (includeSystem options = true → systemStream s'.1 = None) ∧
               mixedStream s'.1 = Some mic ∧
               audioContext s'.1 = audioContext s.1 ∧
               isRecording s'.1 = true).
Proof.
  intros Hrec. split; [|split].
  - intros cause Hmic Hfail.
    destruct (start_microphone_fails env options s cause) as (s' & ? & _);
      [done..|]. eauto.
  - intros [r h] Hfail. unfold system_audio_fails in Hfail.
    destruct (desktop_capture env) as [kinds|] eqn:Hcap.
    + rewrite (getSystemAudioStream_no_audio env kinds) by
        (done || by destruct (has_audio kinds)).
      by eexists.
    + rewrite getSystemAudioStream_not_captured by done. by eexists.
  - intros kinds Hmic Hok Hfail Hctor Hrun.
    destruct s as [r h]. simpl in Hrec.
    set (mic := {| stream_id := fresh h + length kinds;
                   getTracks := mk_tracks (fresh h) kinds |}).
    destruct (no_system_audio env options [Some mic]
                (set_micStream (Some mic) r, (capture kinds (r, h)).2.2)
                (or_intror Hfail)) as [h' Hh'].
    exists mic. eexists.
    unfold start, bind at 1, this at 1. cbn beta iota. cbn [fst].
    rewrite Hrec, Hmic. unfold try_catch. cbn zeta.
    erewrite bind_normal; last first.
    { erewrite bind_normal by (by apply getMicrophoneStream_ok).
      unfold bind, update_this, ret. cbn beta iota. reflexivity. }
    erewrite bind_normal by exact Hh'.
    unfold mixAudioStreams. cbn [filter_non_null omap id].
    unfold bind, update_this, this, ret, new_MediaRecorder, MediaRecorder_start.
    cbn beta iota. rewrite Hctor. cbn beta iota. rewrite Hrun.
    cbn beta iota. cbn [fst snd].
    split; [reflexivity|]. simpl.
    by destruct (includeSystem options).
Qed.

Lemma acquisition_failures_witness :
  (start env_denied Options_default idle).1
    = Throw (AcquisitionError (Error "Permission denied")) ∧
  (getSystemAudioStream env_silent_desktop idle).1 = Normal None ∧
  (start env_silent_desktop Options_default idle).1 = Normal true.
Proof.
  destruct (acquisition_failures env_denied Options_default idle eq_refl)
    as (Hmic & _ & _).
  destruct (acquisition_failures env_silent_desktop Options_default idle eq_refl)
    as (_ & Hsys & Hgo).
  destruct (Hmic (Error "Permission denied")) as (s1 & ->); [done..|].
  destruct (Hsys idle) as (h' & ->); [done|].
  destruct (Hgo [Audio]) as (mic & s' & -> & _); done.
Defined.

(** ** What a failed [start] leaves behind *)

Lemma bind_inv_throw {Σ A B} (m : Eff Σ A) (k : A → Eff Σ B) s e s' :
  bind m k s = (Throw e, s') →
  m s = (Throw e, s') ∨ ∃ a s1, m s = (Normal a, s1) ∧ k a s1 = (Throw e, s').
Proof.
  unfold bind. destruct (m s) as [[a|e0] s1]; [eauto|].
  intros [= <- <-]. by left.
Qed.

Lemma track_ids_filter_split (ts : list Track) :
  track_ids ts ∖ track_ids (List.filter is_video ts)
    ⊆ track_ids (List.filter is_audio ts).
Proof.
  unfold track_ids. intros i.
  rewrite elem_of_difference, !elem_of_list_to_set, !list_elem_of_fmap.
  intros [(t & -> & Ht) Hnot]. exists t. split; [done|].
  apply list_elem_of_In, filter_In. split; [by apply list_elem_of_In|].
  destruct (is_audio t) eqn:Ha; [done|]. exfalso. apply Hnot.
  exists t. split; [done|]. apply list_elem_of_In, filter_In.
  split; [by apply list_elem_of_In|].
  unfold is_audio, is_video in *. by destruct (kind t).
Qed.

Lemma getMicrophoneStream_cases env (s : State) :
  (∃ cause, getMicrophoneStream env s = (Throw (AcquisitionError cause), s)) ∨
  (∃ kinds, getMicrophoneStream env s = capture kinds s).
Proof.
  destruct (mic_result env) as [kinds|cause] eqn:H.
  - right. exists kinds. by apply getMicrophoneStream_ok.
  - left. exists cause. by apply getMicrophoneStream_fails.
Qed.

(** Unless the capture is silent, [getSystemAudioStream] either changes
    nothing, or returns a stream that holds every track it left live. *)
Lemma getSystemAudioStream_cases env (s : State) :
  silent_capture env = false →
  getSystemAudioStream env s = (Normal None, s) ∨
  ∃ sys h1, getSystemAudioStream env s = (Normal (Some sys), (s.1, h1)) ∧
            live h1 ⊆ live s.2 ∪ track_ids (getTracks sys) ∧
            graphs h1 = graphs s.2.
Proof.
  unfold silent_capture. intros Hsilent.
  destruct (desktop_capture env) as [kinds|] eqn:Hcap.
  - right. apply negb_false_iff in Hsilent.
    rewrite (getSystemAudioStream_audio env kinds) by done.
    do 2 eexists. split; [done|]. split; [|done]. simpl.
    pose proof (track_ids_filter_split (mk_tracks (fresh s.2) kinds)).
    set_solver.
  - left. by apply getSystemAudioStream_not_captured.
Qed.

Lemma forEach_connect_source_frame env (ctx : nat) (l : list MediaStream)
    (r : MeetingRecorder) (h : Host) :
  ∃ c h', forEach (connect_source env ctx) l (r, h) = (c, (r, h')) ∧
          live h' = live h ∧
          ∀ c', c' ≠ ctx → graphs h' !! c' = graphs h !! c'.
Proof.
  revert h. induction l as [|s l IH]; intros h; [by do 2 eexists|].
  cbn [forEach]. unfold bind at 1, connect_source at 1.
  destruct (source_node_result env s) as [e|]; [by do 2 eexists|].
  unfold update_host. cbn beta iota. cbn [fst snd].
  destruct (IH (set_graphs (alter (connect_all [stream_id s]) ctx (graphs h)) h))
    as (c & h' & -> & Hlive & Hgraphs).
  exists c, h'. split; [done|]. split; [done|].
  intros c' Hne. rewrite Hgraphs by done. simpl. by rewrite lookup_alter_ne.
Qed.

(** [mixAudioStreams], whatever its outcome, leaves the tracks and the
    streams of the recorder alone; a context it created is the one stored in
    [audioContext]. *)
Lemma mixAudioStreams_frame env streams (r : MeetingRecorder) (h : Host) :
  ∃ c r' h', mixAudioStreams env streams (r, h) = (c, (r', h')) ∧
    live h' = live h ∧
    micStream r' = micStream r ∧ systemStream r' = systemStream r ∧
    ((r' = r ∧ h' = h) ∨
     (audioContext r' = Some (fresh h) ∧
      ∀ c', c' ≠ fresh h → graphs h' !! c' = graphs h !! c')).
Proof.
  unfold mixAudioStreams.
  destruct (filter_non_null streams) as [|s1 [|s2 rest]];
    [do 3 eexists; split; [done|]; repeat split; by left..|].
  unfold bind at 1, new_AudioContext.
  destruct (context_result env) as [e|];
    [do 3 eexists; split; [done|]; repeat split; by left|].
  cbn beta iota. cbn [fst snd].
  unfold bind at 1, update_this at 1. cbn beta iota. cbn [fst snd].
  unfold bind at 1, createMediaStreamDestination, bind, host.
  cbn beta iota. cbn [snd]. unfold set_graphs at 1. cbn [graphs].
  rewrite lookup_insert_eq. unfold ret at 1. cbn beta iota.
  match goal with |- context [forEach _ ?l (?r1, ?h1)] =>
    destruct (forEach_connect_source_frame env (fresh h) l r1 h1)
      as (c & h' & -> & Hlive & Hgraphs) end.
  destruct c as [[]|e]; do 3 eexists; (split; [done|]);
    (split; [by rewrite Hlive|]); (split; [done|]); (split; [done|]);
    right; (split; [done|]); intros c' Hne; rewrite Hgraphs by done;
    simpl; by rewrite lookup_insert_ne.
Qed.

Lemma release_host_live (r : MeetingRecorder) (h : Host) :
  live (release_host r h)
    = live h ∖ stream_tracks (micStream r) ∖ stream_tracks (systemStream r).
Proof. unfold release_host. by destruct (audioContext r). Qed.

Lemma release_host_open (r : MeetingRecorder) (h : Host) c g :
  graphs (release_host r h) !! c = Some g → closed g = false →
  graphs h !! c = Some g ∧ audioContext r ≠ Some c.
Proof.
  unfold release_host. destruct (audioContext r) as [ctx|]; simpl; [|done].
  destruct (decide (ctx = c)) as [->|Hne].
  - rewrite lookup_alter_eq. destruct (graphs h !! c); [|done].
    simpl. by intros [= <-].
  - rewrite lookup_alter_ne by done. intros ? _. split; congruence.
Qed.

(** Cleanup after a state that holds all it acquired releases all of it. *)
Lemma released_all (s0 s1 : State) :
  tracks_held s0 s1 → graphs_held s0 s1 →
  live (release_host s1.1 s1.2) ⊆ live s0.2 ∧
  ∀ c g, graphs (release_host s1.1 s1.2) !! c = Some g → closed g = false →
         ∃ g0, graphs s0.2 !! c = Some g0 ∧ closed g0 = false.
Proof.
  unfold tracks_held, graphs_held. intros Ht Hg. split.
  - rewrite release_host_live. set_solver.
  - intros c g Hc Hopen.
    apply release_host_open in Hc as [Hc Hne]; [|done].
    destruct (Hg c g Hc Hopen) as [?|?]; done.
Qed.

Lemma held_refl (s : State) : tracks_held s s ∧ graphs_held s s.
Proof.
  split; [unfold tracks_held; set_solver|].
  intros c g Hc Hopen. right. eauto.
Qed.

Lemma bind_inv {Σ A B} (m : Eff Σ A) (k : A → Eff Σ B) s c s' :
  bind m k s = (c, s') →
  (∃ e, c = Throw e ∧ m s = (Throw e, s')) ∨
  (∃ a s1, m s = (Normal a, s1) ∧ k a s1 = (c, s')).
Proof.
  unfold bind. destruct (m s) as [[a|e0] s1]; [eauto|].
  intros [= <- <-]. left. eauto.
Qed.

(** Unless the desktop capture is silent, the state [start] ends in, whether
    it succeeds or fails, holds every capture track and every audio context
    that the call left live or open. *)
Lemma start_holds env options (s s' : State) c :
  isRecording s.1 = false →
  silent_capture env = false →
  start env options s = (c, s') →
  tracks_held s s' ∧ graphs_held s s'.
Proof.
  intros Hrec Hsilent. unfold start, bind at 1, this at 1. cbn beta iota.
  rewrite Hrec. unfold try_catch. cbn zeta.
  match goal with |- context [let (c, s') := ?b s in _] =>
    destruct (b s) as [c1 s1] eqn:Hbody end.
  cut (tracks_held s s1 ∧ graphs_held s s1).
  { intros [Ht Hg]. destruct c1 as [a|e]; [by intros [= _ <-]|].
    rewrite cleanup_then_throw. intros [= _ <-].
    destruct (released_all s s1 Ht Hg) as [Hlive Hopen]. split.
    - unfold tracks_held. cbn [fst snd]. set_solver.
    - intros c' g Hc Ho. right. exact (Hopen c' g Hc Ho). }
  clear c s' Hrec.
  (* the microphone *)
  apply bind_inv in Hbody as [(e & -> & Hmic)|(streams & sm & Hmic & Hbody)].
  { destruct (includeMic options); [|discriminate].
    apply bind_inv_throw in Hmic as [Hmic|(mic & s2 & _ & Hmic)];
      [|discriminate].
    destruct (getMicrophoneStream_cases env s) as [[cause H]|[kinds H]];
      rewrite H in Hmic; [|discriminate].
    injection Hmic as _ <-. apply held_refl. }
  assert (live sm.2 ⊆ live s.2 ∪ stream_tracks (micStream sm.1) ∧
          graphs sm.2 = graphs s.2 ∧ audioContext sm.1 = audioContext s.1)
    as (Hlive1 & Hgraphs1 & Hctx1).
  { destruct (includeMic options).
    - inv_bind Hmic as mic s2 Hget. inv_bind Hmic as u s3 Hset.
      inv_update Hset. inv_update Hmic.
      destruct (getMicrophoneStream_cases env s) as [[cause H]|[kinds H]];
        rewrite H in Hget; [discriminate|].
      injection Hget as <- <-. simpl. split; [set_solver|done].
    - inv_update Hmic. split; [set_solver|done]. }
  clear Hmic.
  (* system audio *)
  apply bind_inv in Hbody as [(e & -> & Hsys)|(streams' & ss & Hsys & Hbody)].
  { destruct (includeSystem options); [|discriminate].
    apply bind_inv_throw in Hsys as [Hsys|(sys & s2 & _ & Hsys)].
    - destruct (getSystemAudioStream_cases env sm Hsilent)
        as [H|(sys & h1 & H & _)]; rewrite H in Hsys; discriminate.
    - apply bind_inv_throw in Hsys as [Hsys|(u & s3 & _ & Hsys)];
        [discriminate|]. by destruct sys. }
  assert (live ss.2 ⊆ live s.2 ∪ stream_tracks (micStream ss.1)
                                ∪ stream_tracks (systemStream ss.1) ∧
          graphs ss.2 = graphs s.2 ∧ audioContext ss.1 = audioContext s.1)
    as (Hlive2 & Hgraphs2 & Hctx2).
  { destruct (includeSystem options).
    - inv_bind Hsys as sys s2 Hget. inv_bind Hsys as u s3 Hset.
      inv_update Hset.
      assert ((set_systemStream sys s2.1, s2.2) = ss) as <-
        by (destruct sys; by inv_update Hsys).
      clear Hsys.
      destruct (getSystemAudioStream_cases env sm Hsilent)
        as [H|(sys' & h1 & H & Hl & Hg)]; rewrite H in Hget;
        injection Hget as <- <-; simpl.
      + split; [set_solver|done].
      + split; [set_solver|]. split; congruence.
    - inv_update Hsys. split; [set_solver|done]. }
  clear Hsys Hlive1 Hgraphs1 Hctx1 sm streams.
  (* mixing *)
  destruct ss as [r2 h2].
  destruct (mixAudioStreams_frame env streams' r2 h2)
    as (c & r3 & h3 & Hmix & Hlive3 & Hmic3 & Hsys3 & Hctx3).
  assert (tracks_held s (r3, h3) ∧ graphs_held s (r3, h3)) as [Ht Hg].
  { split.
    - unfold tracks_held. simpl in *. rewrite Hlive3, Hmic3, Hsys3. done.
    - intros c' g Hc Hopen. simpl in *.
      destruct Hctx3 as [[-> ->]|[Hnew Hold]].
      + right. rewrite <- Hgraphs2. eauto.
      + destruct (decide (c' = fresh h2)) as [->|Hne]; [by left|].
        right. rewrite Hold, Hgraphs2 in Hc by done. eauto. }
  apply bind_inv in Hbody as [(e & -> & Hthrow)|(mixed & s3 & Hnormal & Hbody)].
  { rewrite Hmix in Hthrow. by injection Hthrow as _ <-. }
  rewrite Hmix in Hnormal. injection Hnormal as _ <-.
  clear Hmix Hlive2 Hgraphs2 Hctx2 Hlive3 Hmic3 Hsys3 Hctx3.
  (* the encoder: only fields that hold no capture are assigned *)
  unfold bind, update_this, this, ret, throw, new_MediaRecorder,
    MediaRecorder_start in Hbody.
  cbn beta iota in Hbody. cbn [fst snd] in Hbody.
  destruct (recorder_result env); cbn beta iota in Hbody;
    [by injection Hbody as _ <-|].
  cbn [fst snd] in Hbody.
  destruct (recorder_start_result env); cbn beta iota in Hbody;
    by injection Hbody as _ <-.
Qed.

(** X8. Unless the desktop capture is silent, a failed [start] has cleared
    every reference, left no capture track live that was not live before, and
    left no audio context open that was not open before. *)
Lemma start_failure_releases env options (s s' : State) e :
  isRecording s.1 = false →
  silent_capture env = false →
  start env options s = (Throw e, s') →
  nothing_acquired s'.1 = true ∧ isRecording s'.1 = false ∧
  live s'.2 ⊆ live s.2 ∧
  ∀ c g, graphs s'.2 !! c = Some g → closed g = false →
         ∃ g0, graphs s.2 !! c = Some g0 ∧ closed g0 = false.
Proof.
  intros Hrec Hsilent Hstart.
  destruct (start_holds _ _ _ _ _ Hrec Hsilent Hstart) as [Ht Hg].
  destruct (start_throw_released _ _ _ _ _ Hrec Hstart) as [s1 ->].
  unfold tracks_held, graphs_held in *. cbn [fst snd] in *.
  split; [done|]. split; [done|]. split.
  - unfold released in Ht. simpl in Ht. set_solver.
  - intros c g Hc Ho. by destruct (Hg c g Hc Ho).
Qed.

(** C6, at the input where the code departs from it.  System audio alone is
    requested and the desktop capture hands out a stream with one video track
    and no audio track: [start] fails with NoSourceError, every reference is
    cleared, and the captured video track (id 0) is still live, although no
    track was live before the call. *)
Theorem start_leaks_desktop_video_track :
  live idle.2 = ∅ ∧
  start env_silent_desktop system_only idle =
    (Throw NoSourceError,
     (MeetingRecorder_new,
      {| fresh := 2; live := {[ 0 ]}; graphs := ∅;
         emitted := []; reported := [] |})).
Proof.
  split; [done|]. vm_compute. reflexivity.
Qed.

(** ** The API client: claims *)

Lemma endMeeting_run (a : MeetingAPI) (log : list Request) outcome :
  truthy (meetingId a) = true →
  endMeeting outcome (a, log) =
    match outcome with
    | Throw e => (Throw e, (a, log ++ [end_request a]))
    | Normal response =>
        if ok response then
          match json response with
          | Normal data =>
              (Normal data, (set_meetingId None a, log ++ [end_request a]))
          | Throw e => (Throw e, (a, log ++ [end_request a]))
          end
        else (Throw (EndError (status response)), (a, log ++ [end_request a]))
    end.
Proof.
  intros Hid. unfold endMeeting, bind at 1, this at 1. cbn beta iota.
  cbn [fst]. rewrite Hid. cbn [negb].
  unfold try_catch, bind, this, fetch, response_json, update_this, ret, throw.
  cbn beta iota. cbn [fst snd].
  destruct outcome as [response|e]; [|done].
  destruct (ok response); [|done]. cbn [negb].
  by destruct (json response).
Qed.

Lemma endMeeting_no_session (a : MeetingAPI) (log : list Request) outcome :
  truthy (meetingId a) = false →
  endMeeting outcome (a, log) = (Throw NoActiveSessionError, (a, log)).
Proof.
  intros Hid. unfold endMeeting, bind, this. cbn beta iota. cbn [fst].
  by rewrite Hid.
Qed.

Lemma submitAudio_keeps_client (a : MeetingAPI) (log : list Request)
    beyond blob seq ts outcome :
  (submitAudio beyond blob seq ts outcome (a, log)).2.1 = a.
Proof.
  unfold submitAudio, bind at 1, this at 1. cbn beta iota. cbn [fst].
  destruct (truthy (meetingId a)); [|done]. cbn [negb].
  unfold try_catch, bind, this, fetch, response_json, ret, throw.
  cbn beta iota. cbn [fst snd].
  destruct outcome as [response|e]; [|done].
  destruct (ok response); [|done]. cbn [negb].
  by destruct (json response).
Qed.

(** C7. With a session active, [endMeeting] clears the session id when the
    call succeeds and leaves it as it was when the call fails: on a network
    error, on a non-2xx response, on an unreadable body, and in general
    whenever it throws.  [submitAudio] never changes the client, whether it
    fails or succeeds. *)
Theorem session_id_after_failure (a : MeetingAPI) (log : list Request) :
  (∀ outcome e s', endMeeting outcome (a, log) = (Throw e, s') →
     meetingId s'.1 = meetingId a) ∧
  (truthy (meetingId a) = true →
     (∀ e, endMeeting (Throw e) (a, log)
             = (Throw e, (a, log ++ [end_request a]))) ∧
     (∀ response, ok response = false →
        endMeeting (Normal response) (a, log)
          = (Throw (EndError (status response)), (a, log ++ [end_request a]))) ∧
     (∀ response data, ok response = true → json response = Normal data →
        endMeeting (Normal response) (a, log)
          = (Normal data, (set_meetingId None a, log ++ [end_request a])))) ∧
  (∀ beyond blob seq ts outcome,
     meetingId (submitAudio beyond blob seq ts outcome (a, log)).2.1
       = meetingId a).
Proof.
  split; [|split].
  - intros outcome e s'. destruct (truthy (meetingId a)) eqn:Hid.
    + rewrite endMeeting_run by done.
      destruct outcome as [response|e0]; [|by intros [= _ <-]].
      destruct (ok response); [|by intros [= _ <-]].
      destruct (json response); [discriminate|by intros [= _ <-]].
    + rewrite endMeeting_no_session by done. by intros [= _ <-].
  - intros Hid. split; [|split].
    + intros e. by rewrite endMeeting_run.
    + intros response Hok. rewrite endMeeting_run by done. by rewrite Hok.
    + intros response data Hok Hjson. rewrite endMeeting_run by done.
      by rewrite Hok, Hjson.
  - intros. by rewrite submitAudio_keeps_client.
Qed.

Lemma session_id_after_failure_witness :
  meetingId (endMeeting server_error in_session).2.1 = Some "m-123" ∧
  (endMeeting (Throw (Error "Failed to fetch")) in_session).1
    = Throw (Error "Failed to fetch") ∧
  (endMeeting server_error in_session).1 = Throw (EndError 500).
Proof.
  destruct (session_id_after_failure in_session.1 in_session.2)
    as (Hfail & Hcases & _).
  destruct Hcases as (Hnet & Hstatus & _); [reflexivity|].
  split; [|split].
  - apply (Hfail server_error (EndError 500)).
    change in_session with (in_session.1, in_session.2).
    unfold server_error. by rewrite Hstatus.
  - change in_session with (in_session.1, in_session.2). by rewrite Hnet.
  - change in_session with (in_session.1, in_session.2).
    unfold server_error. by rewrite Hstatus.
Defined.

Lemma createMeeting_run (a : MeetingAPI) (log : list Request)
    userId title outcome :
  createMeeting userId title outcome (a, log) =
    match outcome with
    | Throw e => (Throw e, (a, log ++ [create_request a userId title]))
    | Normal response =>
        if ok response then
          match json response with
          | Normal data =>
              (Normal data,
               (set_meetingId (Some (data_meetingId data)) a,
                log ++ [create_request a userId title]))
          | Throw e => (Throw e, (a, log ++ [create_request a userId title]))
          end
        else (Throw (CreateError (status response)),
              (a, log ++ [create_request a userId title]))
    end.
Proof.
  unfold createMeeting, try_catch, bind, this, fetch, response_json,
    update_this, ret, throw.
  cbn beta iota. cbn [fst snd].
  destruct outcome as [response|e]; [|done].
  destruct (ok response); [|done]. cbn [negb].
  by destruct (json response).
Qed.

(** C8. Without a session id (the field is null, or the empty string, which
    the guard treats alike), [submitAudio] throws NoActiveSessionError and
    issues no request: client and request log are unchanged.  This is the
    state of a new client, the state a failed [createMeeting] leaves a new
    client in, and the state after a successful [endMeeting]. *)
Theorem submit_without_session (a : MeetingAPI) (log : list Request)
    beyond blob seq ts outcome :
  truthy (meetingId a) = false →
  submitAudio beyond blob seq ts outcome (a, log)
    = (Throw NoActiveSessionError, (a, log)) ∧
  (∀ url, truthy (meetingId (MeetingAPI_new url)) = false) ∧
  (∀ userId title created e s',
     createMeeting userId title created (a, log) = (Throw e, s') →
     truthy (meetingId s'.1) = false) ∧
  (∀ (a0 : MeetingAPI) (log0 : list Request) ended data s',
     endMeeting ended (a0, log0) = (Normal data, s') →
     truthy (meetingId s'.1) = false).
Proof.
  intros Hid. split; [|split; [|split]].
  - unfold submitAudio, bind, this. cbn beta iota. cbn [fst].
    by rewrite Hid.
  - done.
  - intros userId title created e s'. rewrite createMeeting_run.
    destruct created as [response|e0]; [|by intros [= _ <-]].
    destruct (ok response); [|by intros [= _ <-]].
    destruct (json response); [discriminate|by intros [= _ <-]].
  - intros a0 log0 ended data s'.
    destruct (truthy (meetingId a0)) eqn:Hid0.
    + rewrite endMeeting_run by done.
      destruct ended as [response|e0]; [|discriminate].
      destruct (ok response); [|discriminate].
      destruct (json response); [by intros [= _ <-]|discriminate].
    + by rewrite endMeeting_no_session.
Qed.

Lemma submit_without_session_witness :
  submitAudio beyond_sample [Byte.x01] 1 169000000
      (ok_response {| speaker := None; transcript := None; summary := None |})
      no_session
    = (Throw NoActiveSessionError, no_session).
Proof.
  apply (submit_without_session (MeetingAPI_new API_BASE_URL) []).
  reflexivity.
Defined.

(** C10. With a session id already stored, a [createMeeting] whose remote
    call succeeds returns the data, replaces the stored id by the returned
    one, and issues a single request, the POST to [/create]: nothing rejects
    the call and no request ends the previous session. *)
Theorem createMeeting_overwrites (a : MeetingAPI) (log : list Request)
    userId title response data previous :
  meetingId a = Some previous →
  ok response = true → json response = Normal data →
  createMeeting userId title (Normal response) (a, log)
    = (Normal data,
       (set_meetingId (Some (data_meetingId data)) a,
        log ++ [create_request a userId title])) ∧
  url (create_request a userId title) = baseUrl a +:+ "/create".
Proof.
  intros _ Hok Hjson. rewrite createMeeting_run, Hok, Hjson. done.
Qed.

Lemma createMeeting_overwrites_witness :
  (createMeeting "u1" "Standup" (ok_response created) in_session).1
    = Normal created ∧
  meetingId (createMeeting "u1" "Standup" (ok_response created) in_session).2.1
    = Some "m-456" ∧
  url <$> (createMeeting "u1" "Standup" (ok_response created) in_session).2.2
    = ["https://chat.ecnu.edu.cn/api/meeting/create"].
Proof.
  destruct (createMeeting_overwrites in_session.1 in_session.2
              "u1" "Standup"
              {| ok := true; status := 200; json := Normal created |}
              created "m-123" eq_refl eq_refl eq_refl) as [Hrun _].
  change in_session with (in_session.1, in_session.2).
  unfold ok_response. rewrite Hrun. by vm_compute.
Defined.

(** ** Which errors [start] throws *)

Lemma forEach_connect_source_throw env (ctx : nat) (l : list MediaStream)
    (s s' : State) e :
  forEach (connect_source env ctx) l s = (Throw e, s') →
  ∃ stream, stream ∈ l ∧ source_node_result env stream = Some e.
Proof.
  revert s. induction l as [|x l IH]; intros s; [discriminate|].
  cbn [forEach]. intros [H|(u & s1 & _ & H)]%bind_inv_throw.
  - unfold connect_source in H.
    destruct (source_node_result env x) as [e0|] eqn:Hx; [|discriminate].
    injection H as -> _. exists x. split; [left|done].
  - destruct (IH _ H) as (stream & Hin & Hs). exists stream.
    split; [by right|done].
Qed.

Lemma mixAudioStreams_throw env streams (s s' : State) e :
  mixAudioStreams env streams s = (Throw e, s') →
  (filter_non_null streams = [] ∧ e = NoSourceError) ∨
  context_result env = Some e ∨
  ∃ stream, stream ∈ filter_non_null streams ∧
            source_node_result env stream = Some e.
Proof.
  unfold mixAudioStreams.
  destruct (filter_non_null streams) as [|s1 [|s2 rest]] eqn:Hv.
  - intros [= <- _]. by left.
  - discriminate.
  - unfold bind at 1, new_AudioContext.
    destruct (context_result env) as [e0|].
    { intros [= <- _]. right. by left. }
    destruct s as [r h]. cbn beta iota. cbn [fst snd].
    unfold bind at 1, update_this at 1. cbn beta iota. cbn [fst snd].
    unfold bind at 1, createMediaStreamDestination, bind, host.
    cbn beta iota. cbn [snd]. unfold set_graphs at 1. cbn [graphs].
    rewrite lookup_insert_eq. unfold ret at 1. cbn beta iota.
    match goal with |- context [forEach ?f ?l ?st] =>
      destruct (forEach f l st) as [[[]|e'] s''] eqn:Hfor end;
      [discriminate|].
    intros [= <- _]. right. right.
    by apply forEach_connect_source_throw in Hfor.
Qed.

Lemma getSystemAudioStream_null env (s s' : State) :
  getSystemAudioStream env s = (Normal None, s') →
  system_audio_fails env = true.
Proof.
  unfold system_audio_fails.
  destruct (desktop_capture env) as [kinds|] eqn:Hcap; [|done].
  destruct (has_audio kinds) eqn:Ha; [|done].
  by rewrite (getSystemAudioStream_audio env kinds).
Qed.

Lemma getSystemAudioStream_never_throws env (s s' : State) e :
  getSystemAudioStream env s ≠ (Throw e, s').
Proof.
  destruct (desktop_capture env) as [kinds|] eqn:Hcap.
  - destruct (has_audio kinds) eqn:Ha.
    + by rewrite (getSystemAudioStream_audio env kinds).
    + by rewrite (getSystemAudioStream_no_audio env kinds).
  - by rewrite getSystemAudioStream_not_captured.
Qed.

Lemma start_error_inv env options (s s' : State) e :
  start env options s = (Throw e, s') →
  (isRecording s.1 = true ∧ e = AlreadyRecordingError) ∨
  (isRecording s.1 = false ∧ start_error_cause env options e).
Proof.
  unfold start, bind at 1, this at 1. cbn beta iota.
  destruct (isRecording s.1) eqn:Hrec; [intros [= <- _]; by left|].
  intros Hstart. right. split; [done|].
  unfold try_catch in Hstart. cbn zeta in Hstart.
  match type of Hstart with context [let (c, s') := ?b s in _] =>
    destruct (b s) as [[a|e'] s1] eqn:Hbody end; [discriminate|].
  rewrite cleanup_then_throw in Hstart. injection Hstart as -> _.
  unfold start_error_cause.
  (* the microphone *)
  apply bind_inv_throw in Hbody as [Hmic|(streams & sm & Hmic & Hbody)].
  { destruct (includeMic options) eqn:Hinc; [|discriminate].
    apply bind_inv_throw in Hmic as [Hmic|(mic & s2 & _ & Hmic)];
      [|discriminate].
    destruct (mic_result env) as [kinds|cause] eqn:Hres.
    - by rewrite (getMicrophoneStream_ok env kinds) in Hmic.
    - rewrite (getMicrophoneStream_fails env cause) in Hmic by done.
      injection Hmic as <- _. left. eauto. }
  assert ((includeMic options = false ∧ streams = []) ∨
          ∃ mic, streams = [Some mic]) as Hstreams.
  { destruct (includeMic options).
    - right. inv_bind Hmic as mic s2 Hget. inv_bind Hmic as u s3 Hset.
      inv_update Hmic. by exists mic.
    - left. by inv_update Hmic. }
  clear Hmic.
  (* system audio *)
  apply bind_inv_throw in Hbody as [Hsys|(streams' & ss & Hsys & Hbody)].
  { destruct (includeSystem options); [|discriminate].
    apply bind_inv_throw in Hsys as [Hsys|(sys & s2 & _ & Hsys)].
    - by apply getSystemAudioStream_never_throws in Hsys.
    - apply bind_inv_throw in Hsys as [Hsys|(u & s3 & _ & Hsys)];
        [discriminate|]. by destruct sys. }
  assert (filter_non_null streams' = [] →
          includeMic options = false ∧
          (includeSystem options = false ∨ system_audio_fails env = true))
    as Hnone.
  { intros Hempty. destruct Hstreams as [[Hinc ->]|[mic ->]].
    - split; [done|].
      destruct (includeSystem options); [|by left]. right.
      inv_bind Hsys as sys s2 Hget. inv_bind Hsys as u s3 Hset.
      destruct sys as [sys|].
      + inv_update Hsys. done.
      + by apply getSystemAudioStream_null in Hget.
    - exfalso. destruct (includeSystem options).
      + inv_bind Hsys as sys s2 Hget. inv_bind Hsys as u s3 Hset.
        destruct sys as [sys|]; inv_update Hsys; done.
      + inv_update Hsys. done. }
  clear Hsys Hstreams.
  (* mixing *)
  apply bind_inv_throw in Hbody as [Hmix|(mixed & s3 & _ & Hbody)].
  { apply mixAudioStreams_throw in Hmix as [[Hempty ->]|[Hctx|[st [_ Hst]]]].
    - right. left. destruct (Hnone Hempty). done.
    - do 2 right. by left.
    - do 3 right. left. eauto. }
  (* the encoder *)
  apply bind_inv_throw in Hbody as [Hbody|(u1 & s4 & _ & Hbody)];
    [discriminate|].
  apply bind_inv_throw in Hbody as [Hbody|(r1 & s5 & _ & Hbody)];
    [discriminate|].
  apply bind_inv_throw in Hbody as [Hbody|(enc & s6 & _ & Hbody)].
  { unfold new_MediaRecorder in Hbody.
    destruct (recorder_result env); [|discriminate].
    injection Hbody as -> _. do 4 right. by left. }
  do 3 (apply bind_inv_throw in Hbody as [Hbody|(? & ? & _ & Hbody)];
        [discriminate|]).
  apply bind_inv_throw in Hbody as [Hbody|(r2 & s7 & _ & Hbody)];
    [discriminate|].
  apply bind_inv_throw in Hbody as [Hbody|(enc' & s8 & _ & Hbody)].
  { unfold MediaRecorder_start in Hbody.
    destruct (recorder_start_result env); [|discriminate].
    injection Hbody as -> _. by do 5 right. }
  do 2 (apply bind_inv_throw in Hbody as [Hbody|(? & ? & _ & Hbody)];
        [discriminate|]).
  discriminate.
Qed.

Lemma start_success_encoder env options (s s' : State) (b : bool) :
  start env options s = (Normal b, s') →
  recorder_result env = None ∧ recorder_start_result env = None.
Proof.
  unfold start. intros H. inv_bind H as r0 s0 Hm. inv_update Hm.
  destruct (isRecording s.1) eqn:Hrec; [discriminate|].
  apply try_catch_inv_normal in H as [H|(e & s1 & _ & H)]; last first.
  { by rewrite cleanup_then_throw in H. }
  inv_bind H as streams1 s1 Hmic. clear Hmic.
  inv_bind H as streams2 s2 Hsys. clear Hsys.
  inv_bind H as mixed s3 Hmix. clear Hmix.
  inv_bind H as u1 s4 Hm. inv_update Hm.
  inv_bind H as r1 s5 Hm. inv_update Hm.
  inv_bind H as enc s6 Hm. unfold new_MediaRecorder in Hm.
  destruct (recorder_result env); [discriminate|]. inv_update Hm.
  inv_bind H as u2 s7 Hm. inv_update Hm.
  inv_bind H as u3 s8 Hm. inv_update Hm.
  inv_bind H as u4 s9 Hm. inv_update Hm.
  inv_bind H as r2 s10 Hm. inv_update Hm.
  inv_bind H as enc' s11 Hm. unfold MediaRecorder_start in Hm.
  by destruct (recorder_start_result env).
Qed.

(** X1. [start] throws nothing but these: on a recording recorder, the
    already-recording error, with the state untouched; otherwise the wrapped
    microphone error, the no-source error, or an error the host raised when
    building the audio graph or the encoder, and then the recorder is left
    released and not recording.  An error raised inside
    [getSystemAudioStream] never reaches the caller. *)
Theorem start_throws_only env options (s s' : State) e :
  start env options s = (Throw e, s') →
  (isRecording s.1 = true ∧ e = AlreadyRecordingError ∧ s' = s) ∨
  (isRecording s.1 = false ∧ start_error_cause env options e ∧
   isRecording s'.1 = false ∧ nothing_acquired s'.1 = true).
Proof.
  intros Hstart.
  destruct (start_error_inv _ _ _ _ _ Hstart) as [[Hrec ->]|[Hrec Hcause]].
  - left. revert Hstart. unfold start, bind, this. cbn beta iota.
    rewrite Hrec. by intros [= <-].
  - right. destruct (start_throw_released _ _ _ _ _ Hrec Hstart) as [s1 ->].
    done.
Qed.

(** X2. On a host whose audio graph can always be built, [start] on a
    recorder that is not recording succeeds exactly when a requested
    microphone is granted, at least one source is acquired (the microphone,
    or system audio with an audio track), and the host accepts both the
    construction and the start of the encoder. *)
Theorem start_succeeds_iff env options (s : State) :
  isRecording s.1 = false →
  context_result env = None →
  (∀ stream, source_node_result env stream = None) →
  (∃ s', start env options s = (Normal true, s')) ↔
  (includeMic options = true → ∃ kinds, mic_result env = Normal kinds) ∧
  (includeMic options = true ∨
   (includeSystem options = true ∧ system_audio_fails env = false)) ∧
  recorder_result env = None ∧ recorder_start_result env = None.
Proof.
  intros Hrec Hctx Hsrc. split.
  - intros [s' Hstart]. split; [|split].
    + intros Hinc. destruct (mic_result env) as [kinds|cause] eqn:Hmic; [eauto|].
      destruct (start_microphone_fails env options s cause) as (s1 & H1 & _);
        [done..|]. congruence.
    + destruct (includeMic options) eqn:Hinc; [by left|]. right.
      destruct (includeSystem options) eqn:Hsys.
      * split; [done|]. destruct (system_audio_fails env) eqn:Hfail; [|done].
        destruct (start_no_source env options s) as (s1 & H1 & _);
          [done|done|right; done|]. congruence.
      * destruct (start_no_source env options s) as (s1 & H1 & _);
          [done|done|left; done|]. congruence.
    + by apply start_success_encoder in Hstart.
  - intros (Hmic & Hsource & Hrecorder & Hrun).
    destruct (start env options s) as [[b|e] s'] eqn:Hstart.
    + apply start_success_inv in Hstart as Hb. destruct Hb as [-> _]. eauto.
    + exfalso.
      destruct (start_error_inv _ _ _ _ _ Hstart) as [[? _]|[_ Hcause]];
        [congruence|].
      destruct Hcause as [(cause & Hinc & Hthrow & _)|
                          [(Hinc & Hno & _)|[?|[[st Hst]|[?|?]]]]];
        try (rewrite Hsrc in Hst);
        try congruence.
      * destruct (Hmic Hinc) as [kinds ?]. congruence.
      * destruct Hsource as [?|[? ?]]; [congruence|].
        destruct Hno; congruence.
Qed.

(** ** Sequence numbers of a session *)

(** [start] calls no callback and leaves the callback fields as the caller
    set them: every step of it does. *)
Lemma calls_nothing_ret {A} (a : A) : calls_nothing (ret a).
Proof. done. Qed.

Lemma calls_nothing_throw {A} (e : JsError) : calls_nothing (throw (A:=A) e).
Proof. done. Qed.

Lemma calls_nothing_this : calls_nothing (this (T:=MeetingRecorder) (W:=Host)).
Proof. done. Qed.

Lemma calls_nothing_host : calls_nothing host.
Proof. done. Qed.






Lemma calls_nothing_capture (kinds : list TrackKind) : calls_nothing (capture kinds).
Proof. done. Qed.

Lemma calls_nothing_new_MediaStream (ts : list Track) :
  calls_nothing (new_MediaStream ts).
Proof. done. Qed.

Lemma calls_nothing_new_AudioContext env (rate : N) :
  calls_nothing (new_AudioContext env rate).
Proof. unfold new_AudioContext. by destruct (context_result env). Qed.

Create HintDb untouched.

#[local] Hint Resolve calls_nothing_ret calls_nothing_throw calls_nothing_this
  calls_nothing_host calls_nothing_capture calls_nothing_new_MediaStream
  calls_nothing_new_AudioContext : untouched.








(** ** A successful [start] on two sources *)

Lemma mixAudioStreams_many env (streams : list (option MediaStream))
    (r : MeetingRecorder) (h : Host) :
  (2 ≤ length (filter_non_null streams))%nat →
  context_result env = None →
  Forall (λ s, source_node_result env s = None) (filter_non_null streams) →
  mixAudioStreams env streams (r, h) =
    (Normal (destination (mixed_graph (filter_non_null streams) h)),
     (set_audioContext (Some (fresh h)) r,
      set_graphs (<[fresh h := mixed_graph (filter_non_null streams) h]> (graphs h))
        (set_fresh (S (S (S (fresh h)))) h))).
Proof.
  intros Hlen Hctx Hsrc. unfold mixAudioStreams.
  destruct (filter_non_null streams) as [|s1 [|s2 rest]] eqn:Hv;
    simpl in Hlen; try lia.
  unfold bind at 1. unfold new_AudioContext. rewrite Hctx. cbn [fst snd].
  unfold bind at 1. unfold update_this at 1. cbn [fst snd].
  unfold bind at 1. unfold createMediaStreamDestination, bind, host.
  cbn [fst snd]. unfold set_graphs at 1. cbn [graphs].
  rewrite lookup_insert_eq. unfold ret at 1.
  unfold bind.
  erewrite forEach_connect_source; [|done|]; last first.
  { simpl. apply lookup_insert_eq. }
  unfold ret. simpl. rewrite insert_insert_eq. done.
Qed.

(** X3. With both sources requested and acquired, and the host
    accepting every call, [start] succeeds and leaves: the microphone stream,
    the audio tracks of the desktop capture as the system stream, one open
    graph at 16000 Hz with the two streams connected in that order, the
    destination stream as the mixed stream, an encoder on it with the
    configured mime type, 64000 bits per second and the chunk interval as
    timeslice, and the status recording with sequence 0. *)
Theorem start_two_sources env options (s : State) mic_kinds desktop_kinds :
  isRecording s.1 = false →
  includeMic options = true → includeSystem options = true →
  mic_result env = Normal mic_kinds →
  desktop_capture env = Some desktop_kinds → has_audio desktop_kinds = true →
  context_result env = None →
  (∀ stream, source_node_result env stream = None) →
  recorder_result env = None → recorder_start_result env = None →
  ∃ mic sys ctx g s',
    start env options s = (Normal true, s') ∧
    micStream s'.1 = Some mic ∧ systemStream s'.1 = Some sys ∧
    getTracks mic = mk_tracks (fresh s.2) mic_kinds ∧
    getTracks sys =
      List.filter is_audio
        (mk_tracks (S (fresh s.2 + length mic_kinds)) desktop_kinds) ∧
    audioContext s'.1 = Some ctx ∧ graphs s'.2 !! ctx = Some g ∧
    sampleRate g = 16000%N ∧ closed g = false ∧
    connected g = [stream_id mic; stream_id sys] ∧
    stream_id mic ≠ stream_id sys ∧
    mixedStream s'.1 = Some (destination g) ∧
    mediaRecorder s'.1 =
      Some {| enc_stream := destination g; enc_mimeType := mimeType s.1;
              enc_audioBitsPerSecond := 64000;
              enc_timeslice := Some (chunkInterval s.1) |} ∧
    getStatus s'.1 = (true, 0).
Proof.
  intros Hrec Hmic Hsys Hmres Hcap Haudio Hctx Hsrc Hctor Hrun.
  destruct s as [r h]. simpl in Hrec.
  unfold start, bind at 1, this at 1. cbn beta iota. cbn [fst].
  rewrite Hrec, Hmic, Hsys. unfold try_catch. cbn zeta.
  erewrite bind_normal; last first.
  { erewrite bind_normal by (by apply getMicrophoneStream_ok).
    unfold bind, update_this, ret. cbn beta iota. reflexivity. }
  erewrite bind_normal; last first.
  { erewrite bind_normal by
      (by apply (getSystemAudioStream_audio env desktop_kinds)).
    unfold bind, update_this, ret. cbn beta iota. reflexivity. }
  erewrite bind_normal; last first.
  { apply mixAudioStreams_many; [simpl; lia|done|].
    simpl. repeat constructor; apply Hsrc. }
  unfold bind, update_this, this, ret, new_MediaRecorder, MediaRecorder_start.
  cbn beta iota. rewrite Hctor. cbn beta iota. rewrite Hrun.
  cbn beta iota. cbn [fst snd].
  do 5 eexists. split; [reflexivity|]. simpl.
  rewrite lookup_insert_eq. repeat split; try done. simpl. lia.
Qed.

(** ** System audio: what [getSystemAudioStream] hands back *)

Lemma mk_tracks_id_ge (i : nat) (kinds : list TrackKind) (t : Track) :
  t ∈ mk_tracks i kinds → (i ≤ track_id t)%nat.
Proof.
  revert i. induction kinds as [|k kinds IH]; intros i; simpl.
  - by intros ?%elem_of_nil.
  - intros [->|Hin%IH]%elem_of_cons; simpl; lia.
Qed.

Lemma mk_tracks_id_inj (i : nat) (kinds : list TrackKind) (t1 t2 : Track) :
  t1 ∈ mk_tracks i kinds → t2 ∈ mk_tracks i kinds →
  track_id t1 = track_id t2 → t1 = t2.
Proof.
  revert i. induction kinds as [|k kinds IH]; intros i; simpl.
  - by intros ?%elem_of_nil.
  - intros [->|H1]%elem_of_cons [->|H2]%elem_of_cons Hid; simpl in *.
    + done.
    + apply mk_tracks_id_ge in H2. lia.
    + apply mk_tracks_id_ge in H1. lia.
    + by apply (IH (S i)).
Qed.

Lemma elem_of_track_ids (ts : list Track) (i : nat) :
  i ∈ track_ids ts ↔ ∃ t, t ∈ ts ∧ track_id t = i.
Proof.
  unfold track_ids. rewrite elem_of_list_to_set, list_elem_of_fmap.
  naive_solver.
Qed.

Lemma elem_of_filter_tracks (f : Track → bool) (ts : list Track) (t : Track) :
  t ∈ List.filter f ts ↔ t ∈ ts ∧ f t = true.
Proof. rewrite !list_elem_of_In. apply filter_In. Qed.

(** X4. [getSystemAudioStream] never throws and never touches the
    recorder or the audio graphs.  It returns null exactly when system audio
    fails; otherwise the stream it returns is not empty, holds audio tracks
    only, all of them live, and every capture track the call left live
    belongs to it: the video tracks of the capture are stopped. *)
Theorem getSystemAudioStream_result env (s : State) :
  ∃ o h', getSystemAudioStream env s = (Normal o, (s.1, h')) ∧
    graphs h' = graphs s.2 ∧ emitted h' = emitted s.2 ∧
    match o with
    | None => system_audio_fails env = true
    | Some sys =>
        system_audio_fails env = false ∧
        getTracks sys ≠ [] ∧
        (∀ t, t ∈ getTracks sys → is_audio t = true ∧ track_id t ∈ live h') ∧
        live h' ⊆ live s.2 ∪ track_ids (getTracks sys)
    end.
Proof.
  destruct s as [r h]. unfold system_audio_fails.
  destruct (desktop_capture env) as [kinds|] eqn:Hcap.
  - destruct (has_audio kinds) eqn:Ha.
    + rewrite (getSystemAudioStream_audio env kinds) by done.
      do 2 eexists. split; [done|]. cbn [getTracks fst snd]. simpl.
      split; [done|]. split; [done|]. split; [done|].
      set (ts := mk_tracks (fresh h) kinds). split; [|split].
      * intros Hnil.
        pose proof (audio_tracks_of_capture (fresh h) kinds) as [Hlen _].
        fold ts in Hlen. rewrite Hnil in Hlen.
        by rewrite Hlen in Ha.
      * intros t [Ht Haud]%elem_of_filter_tracks. split; [done|].
        apply elem_of_difference. split.
        -- apply elem_of_union_r, elem_of_track_ids. eauto.
        -- intros (t' & [Ht' Hvid]%elem_of_filter_tracks & Hid)%elem_of_track_ids.
           assert (t' = t) as -> by by apply (mk_tracks_id_inj (fresh h) kinds).
           unfold is_audio, is_video in *. by destruct (kind t).
      * pose proof (track_ids_filter_split ts). set_solver.
    + rewrite (getSystemAudioStream_no_audio env kinds) by done.
      by do 2 eexists.
  - rewrite getSystemAudioStream_not_captured by done. by do 2 eexists.
Qed.

(** ** Encoder events during a recording *)

Lemma set_sequence_id (r : MeetingRecorder) : set_sequence (sequence r) r = r.
Proof. by destruct r. Qed.

Lemma set_sequence_twice (n m : nat) (r : MeetingRecorder) :
  set_sequence m (set_sequence n r) = set_sequence m r.
Proof. done. Qed.

(** One event fired while the callbacks leave the recorder alone: whether a
    callback returns or throws, the recorder changes in its counter only. *)
Lemma dispatch_bystander (caller : Caller) (ev : EncoderEvent)
    (r : MeetingRecorder) (h : Host) :
  (∀ blob n t, keeps_recorder (onAudioChunk_fn caller blob n t)) →
  (∀ error, keeps_recorder (onError_fn caller error)) →
  ∃ h', dispatch caller ev (r, h) =
          (Normal tt,
           (set_sequence
              (sequence r + length (filter non_empty (data_events [ev]))) r,
            h')) ∧
        emitted h' = emitted h ++
          (if onAudioChunk r then chunks_from (sequence r) (data_events [ev])
           else []) ∧
        reported h' = reported h ++
          (if onError r then error_events [ev] else []) ∧
        ((∀ blob n t, keeps_media (onAudioChunk_fn caller blob n t)) →
         (∀ error, keeps_media (onError_fn caller error)) →
         live h' = live h ∧ graphs h' = graphs h).
Proof.
  intros Hchunk Herror. unfold dispatch, try_catch.
  destruct ev as [data now|error]; cbn [deliver].
  - change (data_events [DataAvailable data now]) with [(data, now)].
    change (error_events [DataAvailable data now]) with (@nil JsError).
    replace (if onError r then [] else []) with (@nil JsError)
      by (by destruct (onError r)).
    rewrite app_nil_r.
    cbn [chunks_from]. rewrite filter_cons, filter_nil.
    destruct (non_empty (data, now)) eqn:E; simpl.
    + assert (0 < Blob_size data) as Hpos
        by (by apply bool_decide_eq_true_1 in E).
      rewrite ondataavailable_non_empty by done.
      rewrite Nat.add_1_r.
      destruct (onAudioChunk r) eqn:Hcb.
      * rewrite call_onAudioChunk_run. cbn zeta.
        match goal with |- context [onAudioChunk_fn caller data ?n now ?st] =>
          pose proof (Hchunk data n now st) as Hr;
          assert (∀ Hm : keeps_media (onAudioChunk_fn caller data n now),
                    live (onAudioChunk_fn caller data n now st).2.2 = live st.2 ∧
                    graphs (onAudioChunk_fn caller data n now st).2.2
                      = graphs st.2) as Hm by (intros Hm; apply Hm);
          destruct (onAudioChunk_fn caller data n now st) as [c [r' h']]
        end.
        cbn [fst snd] in *. subst r'.
        destruct c as [[]|e]; eexists; (split; [reflexivity|]);
          simpl; (split; [done|]); (split; [done|]);
          intros Hm1 _; apply (Hm (Hm1 _ _ _)).
      * eexists. split; [reflexivity|]. by rewrite !app_nil_r.
    + assert (Blob_size data = 0) as Hzero
        by (apply bool_decide_eq_false_1 in E; simpl in E; lia).
      rewrite ondataavailable_empty by done. rewrite Nat.add_0_r.
      rewrite set_sequence_id. eexists. split; [reflexivity|].
      destruct (onAudioChunk r); by rewrite !app_nil_r.
  - change (data_events [ErrorEvent error]) with (@nil Flush).
    change (error_events [ErrorEvent error]) with [error].
    replace (if onAudioChunk r then chunks_from (sequence r) [] else [])
      with (@nil AudioChunk) by (by destruct (onAudioChunk r)).
    rewrite app_nil_r.
    simpl. rewrite Nat.add_0_r, set_sequence_id.
    unfold onerror, bind at 1, this at 1. cbn beta iota. cbn [fst snd].
    destruct (onError r) eqn:Hcb.
    + rewrite call_onError_run. cbn zeta.
      match goal with |- context [onError_fn caller error ?st] =>
        pose proof (Herror error st) as Hr;
        assert (∀ Hm : keeps_media (onError_fn caller error),
                  live (onError_fn caller error st).2.2 = live st.2 ∧
                  graphs (onError_fn caller error st).2.2 = graphs st.2)
          as Hm by (intros Hm; apply Hm);
        destruct (onError_fn caller error st) as [c [r' h']]
      end.
      cbn [fst snd] in *. subst r'.
      destruct c as [[]|e]; eexists; (split; [reflexivity|]);
        simpl; (split; [done|]); (split; [done|]);
        intros _ Hm2; apply (Hm (Hm2 _)).
    + eexists. split; [reflexivity|]. by rewrite !app_nil_r.
Qed.

Lemma data_events_cons (ev : EncoderEvent) (evs : list EncoderEvent) :
  data_events (ev :: evs) = data_events [ev] ++ data_events evs.
Proof. unfold data_events. simpl. by destruct ev. Qed.

Lemma error_events_cons (ev : EncoderEvent) (evs : list EncoderEvent) :
  error_events (ev :: evs) = error_events [ev] ++ error_events evs.
Proof. unfold error_events. simpl. by destruct ev. Qed.

Lemma chunks_from_app (n : nat) (l1 l2 : list Flush) :
  chunks_from n (l1 ++ l2) =
    chunks_from n l1 ++ chunks_from (n + length (filter non_empty l1)) l2.
Proof.
  revert n. induction l1 as [|ev l1 IH]; intros n.
  - simpl. by rewrite Nat.add_0_r.
  - rewrite <- app_comm_cons.
    rewrite (chunks_from_cons n ev (l1 ++ l2)), (chunks_from_cons n ev l1), IH.
    rewrite (non_empty_cons ev l1), <- app_assoc. do 3 f_equal. lia.
Qed.

(** Any run of events fired while the callbacks leave the recorder alone. *)
Lemma dispatch_all_bystander (caller : Caller) (evs : list EncoderEvent)
    (r : MeetingRecorder) (h : Host) :
  (∀ blob n t, keeps_recorder (onAudioChunk_fn caller blob n t)) →
  (∀ error, keeps_recorder (onError_fn caller error)) →
  ∃ h', forEach (dispatch caller) evs (r, h) =
          (Normal tt,
           (set_sequence
              (sequence r + length (filter non_empty (data_events evs))) r,
            h')) ∧
        emitted h' = emitted h ++
          (if onAudioChunk r then chunks_from (sequence r) (data_events evs)
           else []) ∧
        reported h' = reported h ++
          (if onError r then error_events evs else []) ∧
        ((∀ blob n t, keeps_media (onAudioChunk_fn caller blob n t)) →
         (∀ error, keeps_media (onError_fn caller error)) →
         live h' = live h ∧ graphs h' = graphs h).
Proof.
  intros Hchunk Herror. revert r h.
  induction evs as [|ev evs IH]; intros r h.
  - exists h. simpl. rewrite Nat.add_0_r, set_sequence_id.
    destruct (onAudioChunk r), (onError r); by rewrite !app_nil_r.
  - cbn [forEach].
    destruct (dispatch_bystander caller ev r h Hchunk Herror)
      as (h1 & H1 & Hem1 & Hrep1 & Hmedia1).
    erewrite bind_normal by exact H1.
    destruct (IH (set_sequence
                    (sequence r + length (filter non_empty (data_events [ev])))
                    r) h1)
      as (h' & H' & Hem & Hrep & Hmedia).
    exists h'. rewrite H'. cbn [sequence set_sequence onAudioChunk onError] in *.
    rewrite set_sequence_twice, Hem, Hrep, Hem1, Hrep1.
    rewrite (data_events_cons ev evs), (error_events_cons ev evs).
    rewrite filter_app, length_app, chunks_from_app.
    split; [do 3 f_equal; lia|].
    split; [destruct (onAudioChunk r); by rewrite <- ?app_assoc, ?app_nil_r|].
    split; [destruct (onError r); by rewrite <- ?app_assoc, ?app_nil_r|].
    intros Hm1 Hm2. destruct (Hmedia1 Hm1 Hm2) as [<- <-]. by apply Hmedia.
Qed.

(** X5. Over any run of encoder events, data and errors mixed, fired at
    the handlers while the caller's callbacks leave the fields of the
    recorder alone, whether they return or throw: every event gets
    through; the counter advances by the number of non-empty flushes,
    whether or not a chunk callback is registered; a registered chunk
    callback is called for exactly those flushes, numbered from the counter
    on; a registered error callback is called with the errors in order; and
    nothing else of the recorder changes, so an encoder error does not stop
    the recording.  For every caller, a handler throws only when the
    callback it calls throws, and throws that error: the data handler on a
    non-empty flush, with the callback run after the counter advanced. *)
Theorem encoder_events (caller : Caller) (evs : list EncoderEvent)
    (r : MeetingRecorder) (h : Host) :
  ((∀ blob n t, keeps_recorder (onAudioChunk_fn caller blob n t)) →
   (∀ error, keeps_recorder (onError_fn caller error)) →
   ∃ h', forEach (dispatch caller) evs (r, h) =
           (Normal tt,
            (set_sequence
               (sequence r + length (filter non_empty (data_events evs))) r,
             h')) ∧
         emitted h' = emitted h ++
           (if onAudioChunk r then chunks_from (sequence r) (data_events evs)
            else []) ∧
         reported h' = reported h ++
           (if onError r then error_events evs else [])) ∧
  (∀ data now e s',
     ondataavailable caller data now (r, h) = (Throw e, s') →
     0 < Blob_size data ∧ onAudioChunk r = true ∧
     (onAudioChunk_fn caller data (S (sequence r)) now
        (set_sequence (S (sequence r)) r,
         set_emitted (emitted h ++ [ {| payload := data;
                                        chunk_sequence := S (sequence r);
                                        capturedAt := now |} ]) h)).1
       = Throw e) ∧
  (∀ error e s',
     onerror caller error (r, h) = (Throw e, s') →
     onError r = true ∧
     (onError_fn caller error
        (r, set_reported (reported h ++ [error]) h)).1 = Throw e).
Proof.
  split; [|split].
  - intros Hchunk Herror.
    destruct (dispatch_all_bystander caller evs r h Hchunk Herror)
      as (h' & H & Hem & Hrep & _).
    by exists h'.
  - intros data now e s'.
    destruct (decide (0 < Blob_size data)) as [Hpos|Hzero].
    + rewrite ondataavailable_non_empty by done.
      destruct (onAudioChunk r); [|discriminate].
      rewrite call_onAudioChunk_run. cbn zeta. by intros [= -> _].
    + rewrite ondataavailable_empty by lia. discriminate.
  - intros error e s'. unfold onerror, bind, this. cbn beta iota. cbn [fst snd].
    destruct (onError r); [|discriminate].
    rewrite call_onError_run. cbn zeta. by intros [= -> _].
Qed.

Lemma encoder_events_witness :
  ∃ h', forEach (dispatch caller_failing)
          [ DataAvailable [Byte.x01] 1000; ErrorEvent (Error "encoder");
            DataAvailable [] 6000; DataAvailable [Byte.x02] 11000 ]
          recording
        = (Normal tt, (set_sequence 2 recording.1, h')) ∧
        chunk_sequence <$> emitted h' = [1; 2] ∧
        reported h' = [Error "encoder"] ∧
        isRecording (set_sequence 2 recording.1) = true.
Proof.
  destruct (encoder_events caller_failing
              [ DataAvailable [Byte.x01] 1000; ErrorEvent (Error "encoder");
                DataAvailable [] 6000; DataAvailable [Byte.x02] 11000 ]
              recording.1 recording.2) as [H _].
  destruct H as (h' & H & Hem & Hrep); [done|done|].
  exists h'. change recording with (recording.1, recording.2) at 1.
  split; [exact H|]. rewrite Hem, Hrep. clear. vm_compute. repeat split.
Defined.

(** ** [stop] and the status *)

(** [stop] on a recorder that is not recording resolves at once and touches
    nothing. *)
Lemma stop_idle (caller : Caller) (answer : StopAnswer) (s : State) :
  isRecording s.1 = false →
  stop caller answer s = (Normal (Fulfilled true), s).
Proof.
  intros H. unfold stop, bind, this. cbn beta iota. by rewrite H.
Qed.

(** When [mediaRecorder.stop()] throws, the promise is rejected and the
    flag is still set. *)
Lemma stop_refused (caller : Caller) (e : JsError) (s : State) enc :
  isRecording s.1 = true → mediaRecorder s.1 = Some enc →
  stop caller (StopThrows e) s = (Throw e, s).
Proof.
  intros Hrec Henc. unfold stop, bind, this. cbn beta iota.
  by rewrite Hrec, Henc.
Qed.

(** Otherwise the flag is cleared, the events still due are handled, and
    [cleanup] runs, and the promise resolves, when the [stop] event comes. *)
Lemma stop_events (caller : Caller) (evs : list EncoderEvent) (stopped : bool)
    (s s1 : State) enc :
  isRecording s.1 = true → mediaRecorder s.1 = Some enc →
  forEach (dispatch caller) evs (set_isRecording false s.1, s.2)
    = (Normal tt, s1) →
  stop caller (StopEvents evs stopped) s =
    if stopped
    then (Normal (Fulfilled true), (released s1.1, release_host s1.1 s1.2))
    else (Normal Pending, s1).
Proof.
  intros Hrec Henc Hevs. unfold stop, bind at 1, this at 1. cbn beta iota.
  rewrite Hrec, Henc. cbn [negb].
  unfold bind at 1, update_this at 1. cbn beta iota.
  erewrite bind_normal by exact Hevs.
  destruct stopped; [|done].
  unfold onstop. destruct s1 as [r1 h1].
  erewrite bind_normal by apply cleanup_closed_form. done.
Qed.

(** X6. [stop] on a recording recorder settles as the host answers.  When
    [mediaRecorder.stop()] throws, the promise is rejected with that error
    and nothing changes: the recorder still counts as recording.  Otherwise
    the flag is cleared and the events still due are handled; without a
    [stop] event the promise stays pending and nothing is released, and with
    it the promise resolves with success after [cleanup]: every reference is
    cleared, and any further [stop] resolves at once and changes nothing.  A
    [stop] issued while the first is pending also resolves at once, although
    nothing has been released.  With callbacks that leave the recorder
    alone, the status after a resolved [stop] is not recording, with the
    counter reached, the final flush included. *)
Theorem stop_then_stop (caller : Caller) (s : State) enc :
  isRecording s.1 = true → mediaRecorder s.1 = Some enc →
  (∀ e, stop caller (StopThrows e) s = (Throw e, s)) ∧
  (∀ evs, ∃ s1,
     forEach (dispatch caller) evs (set_isRecording false s.1, s.2)
       = (Normal tt, s1) ∧
     stop caller (StopEvents evs false) s = (Normal Pending, s1) ∧
     stop caller (StopEvents evs true) s
       = (Normal (Fulfilled true), (released s1.1, release_host s1.1 s1.2)) ∧
     nothing_acquired (released s1.1) = true ∧
     isRecording (released s1.1) = false ∧
     ∀ answer,
       stop caller answer (released s1.1, release_host s1.1 s1.2)
         = (Normal (Fulfilled true),
            (released s1.1, release_host s1.1 s1.2))) ∧
  (stop caller (StopEvents [] false) s
     = (Normal Pending, (set_isRecording false s.1, s.2)) ∧
   ∀ answer,
     stop caller answer (set_isRecording false s.1, s.2)
       = (Normal (Fulfilled true), (set_isRecording false s.1, s.2))) ∧
  ((∀ blob n t, keeps_recorder (onAudioChunk_fn caller blob n t)) →
   ∀ final : Flush,
     getStatus
       (stop caller (StopEvents [DataAvailable final.1 final.2] true) s).2.1
       = (false, sequence s.1 + if non_empty final then 1 else 0)).
Proof.
  intros Hrec Henc. split; [|split; [|split]].
  - intros e. by apply (stop_refused caller e s enc).
  - intros evs.
    destruct (dispatch_all_returns caller evs (set_isRecording false s.1, s.2))
      as [s1 H1].
    exists s1. split; [done|].
    split; [by rewrite (stop_events caller evs false s s1 enc)|].
    split; [by rewrite (stop_events caller evs true s s1 enc)|].
    split; [done|]. split; [done|].
    intros answer. by apply stop_idle.
  - split; [|intros answer; by apply stop_idle].
    by rewrite (stop_events caller [] false s
                  (set_isRecording false s.1, s.2) enc).
  - intros Hchunk [data now]. cbn [fst snd].
    destruct (dispatch_returns caller (DataAvailable data now)
                (set_isRecording false s.1, s.2)) as [s1 H1].
    rewrite (stop_events caller [DataAvailable data now] true s s1 enc);
      [|done|done|by cbn [forEach]; erewrite bind_normal by exact H1].
    revert H1. unfold dispatch, try_catch. cbn [deliver fst snd].
    unfold getStatus, non_empty. cbn [fst snd].
    destruct (decide (0 < Blob_size data)) as [Hpos|Hzero].
    + rewrite ondataavailable_non_empty by done.
      rewrite bool_decide_eq_true_2 by done.
      cbn [onAudioChunk sequence set_isRecording].
      destruct (onAudioChunk s.1).
      * rewrite call_onAudioChunk_run. cbn zeta.
        match goal with |- context [onAudioChunk_fn caller data ?n now ?st] =>
          pose proof (Hchunk data n now st) as Hr;
          destruct (onAudioChunk_fn caller data n now st) as [c [r' h']]
        end.
        cbn [fst snd] in *. subst r'.
        destruct c as [[]|e]; intros [= <-]; simpl; f_equal; lia.
      * intros [= <-]. simpl. f_equal. lia.
    + rewrite ondataavailable_empty by lia.
      rewrite bool_decide_eq_false_2 by done.
      intros [= <-]. simpl. f_equal. lia.
Qed.

Lemma stop_then_stop_witness :
  stop caller_failing (StopThrows (Error "InvalidStateError")) recording
    = (Throw (Error "InvalidStateError"), recording) ∧
  (stop caller_failing (StopEvents [] false) recording).1 = Normal Pending ∧
  live (stop caller_failing (StopEvents [] false) recording).2.2 = live recording.2 ∧
  (∃ s1, stop caller_failing
           (StopEvents [DataAvailable [Byte.x01] 5000] true) recording
         = (Normal (Fulfilled true), s1) ∧
         stop caller_failing (StopEvents [] false) s1
         = (Normal (Fulfilled true), s1) ∧
         getStatus s1.1 = (false, 1)).
Proof.
  destruct (stop_then_stop caller_failing recording
              {| enc_stream := {| stream_id := 7;
                                  getTracks := [ {| track_id := 8; kind := Audio |} ] |};
                 enc_mimeType := "audio/webm;codecs=opus";
                 enc_audioBitsPerSecond := 64000;
                 enc_timeslice := Some 5000%N |})
    as (H1 & H2 & [H3 _] & H4).
  - vm_compute. reflexivity.
  - vm_compute. reflexivity.
  - split; [apply H1|]. rewrite H3. split; [done|]. split; [done|].
    destruct (H2 [DataAvailable [Byte.x01] 5000])
      as (s1 & _ & _ & Hstop & _ & _ & Hagain).
    eexists. split; [exact Hstop|]. split; [apply Hagain|].
    specialize (H4 (λ _ _ _ _, eq_refl) ([Byte.x01], 5000%N)).
    cbn [fst snd] in H4. rewrite Hstop in H4. exact H4.
Defined.

(** X7. A whole session: a successful [start], any events, [stop], with
    callbacks that look on (they may throw), and unless the desktop capture
    is silent.  When the [stop] event comes, [stop] resolves and afterwards
    every reference is cleared, no capture track is live that was not live
    before [start], and no audio context is open that was not open before.
    When it does not come, the promise stays pending and nothing is
    released: the recorder holds the streams and the context it acquired,
    with the tracks and the contexts as they were, under a cleared recording
    flag.  When [mediaRecorder.stop()] throws, the promise is rejected and
    the recorder is left recording. *)
Lemma session_releases (caller : Caller) env options (s s1 s2 : State)
    (evs final : list EncoderEvent) :
  isRecording s.1 = false →
  silent_capture env = false →
  bystander caller →
  start env options s = (Normal true, s1) →
  forEach (dispatch caller) evs s1 = (Normal tt, s2) →
  (∃ s3, stop caller (StopEvents final true) s2 = (Normal (Fulfilled true), s3) ∧
         nothing_acquired s3.1 = true ∧ isRecording s3.1 = false ∧
         live s3.2 ⊆ live s.2 ∧
         ∀ c g, graphs s3.2 !! c = Some g → closed g = false →
                ∃ g0, graphs s.2 !! c = Some g0 ∧ closed g0 = false) ∧
  (∃ s3, stop caller (StopEvents final false) s2 = (Normal Pending, s3) ∧
         isRecording s3.1 = false ∧
         micStream s3.1 = micStream s1.1 ∧
         systemStream s3.1 = systemStream s1.1 ∧
         audioContext s3.1 = audioContext s1.1 ∧
         mediaRecorder s3.1 = mediaRecorder s1.1 ∧
         live s3.2 = live s1.2 ∧ graphs s3.2 = graphs s1.2) ∧
  (∀ e, stop caller (StopThrows e) s2 = (Throw e, s2) ∧
        isRecording s2.1 = true).
Proof.
  intros Hrec Hsilent [Hchunk Herror] Hstart Hrun.
  destruct (start_holds _ _ _ _ _ Hrec Hsilent Hstart) as [Ht Hg].
  apply start_success_inv in Hstart as (_ & _ & _ & _ & Hrec1 & mixed & _ & Henc).
  destruct s1 as [r1 h1]. cbn [fst snd] in *.
  destruct (dispatch_all_bystander caller evs r1 h1
              (λ b n t, proj1 (Hchunk b n t)) (λ e, proj1 (Herror e)))
    as (h2 & Hrun' & _ & _ & Hmedia).
  destruct Hmedia as [Hlive2 Hgraphs2];
    [intros; apply Hchunk|intros; apply Herror|].
  rewrite Hrun' in Hrun. injection Hrun as <-.
  set (r2 := set_sequence
               (sequence r1 + length (filter non_empty (data_events evs))) r1)
    in *.
  destruct (dispatch_all_bystander caller final (set_isRecording false r2) h2
              (λ b n t, proj1 (Hchunk b n t)) (λ e, proj1 (Herror e)))
    as (h3 & Hlast & _ & _ & Hmedia).
  destruct Hmedia as [Hlive3 Hgraphs3];
    [intros; apply Hchunk|intros; apply Herror|].
  split; [|split].
  - rewrite (stop_events caller final true (r2, h2) _ _ Hrec1 Henc Hlast).
    eexists. split; [done|]. cbn [fst snd]. split; [done|]. split; [done|].
    match goal with |- context [release_host ?r ?h] =>
      apply (released_all s (r, h)) end.
    + unfold tracks_held in *. cbn [fst snd] in *.
      by rewrite Hlive3, Hlive2.
    + unfold graphs_held in *. cbn [fst snd] in *.
      rewrite Hgraphs3, Hgraphs2. exact Hg.
  - rewrite (stop_events caller final false (r2, h2) _ _ Hrec1 Henc Hlast).
    eexists. split; [done|]. cbn [fst snd].
    rewrite Hlive3, Hlive2, Hgraphs3, Hgraphs2. done.
  - intros e. split; [|done].
    eapply stop_refused; [exact Hrec1|exact Henc].
Qed.

Lemma session_releases_witness :
  (∃ s3, stop caller_failing (StopEvents [DataAvailable [Byte.x03] 11000] true)
           (forEach (dispatch caller_failing)
              [DataAvailable [Byte.x01] 1000; ErrorEvent (Error "encoder")]
              recording).2
         = (Normal (Fulfilled true), s3) ∧
         live s3.2 ⊆ live listening.2) ∧
  (∃ s3, stop caller_failing (StopEvents [DataAvailable [Byte.x03] 11000] false)
           (forEach (dispatch caller_failing)
              [DataAvailable [Byte.x01] 1000; ErrorEvent (Error "encoder")]
              recording).2
         = (Normal Pending, s3) ∧
         live s3.2 = live recording.2).
Proof.
  destruct (session_releases caller_failing env_ok Options_default
              listening recording
              (forEach (dispatch caller_failing)
                 [DataAvailable [Byte.x01] 1000; ErrorEvent (Error "encoder")]
                 recording).2
              [DataAvailable [Byte.x01] 1000; ErrorEvent (Error "encoder")]
              [DataAvailable [Byte.x03] 11000])
    as ((s3 & H & _ & _ & Hlive & _) & (s3' & H' & _ & _ & _ & _ & _ & Hlive' & _) & _).
  - reflexivity.
  - reflexivity.
  - split; intros; split; intros ?; (reflexivity || (split; reflexivity)).
  - vm_compute. reflexivity.
  - vm_compute. reflexivity.
  - split; [exists s3|exists s3']; (split; [assumption|assumption]).
Defined.

Lemma start_failure_releases_witness :
  (start env_unsupported Options_default idle).1
    = Throw (Error "NotSupportedError") ∧
  nothing_acquired (start env_unsupported Options_default idle).2.1 = true ∧
  live (start env_unsupported Options_default idle).2.2 ⊆ ∅.
Proof.
  split; [vm_compute; reflexivity|].
  destruct (start_failure_releases env_unsupported Options_default idle
              (start env_unsupported Options_default idle).2
              (Error "NotSupportedError"))
    as (H1 & _ & H2 & _).
  - reflexivity.
  - reflexivity.
  - vm_compute. reflexivity.
  - split; [exact H1|exact H2].
Defined.

Lemma start_throws_only_witness :
  start_error_cause env_unsupported Options_default (Error "NotSupportedError") ∧
  start_error_cause env_denied Options_default
    (AcquisitionError (Error "Permission denied")).
Proof.
  split.
  - destruct (start_throws_only env_unsupported Options_default idle
                (start env_unsupported Options_default idle).2
                (Error "NotSupportedError"))
      as [[H _]|(_ & H & _)]; [vm_compute; reflexivity|discriminate|done].
  - destruct (start_throws_only env_denied Options_default idle
                (start env_denied Options_default idle).2
                (AcquisitionError (Error "Permission denied")))
      as [[H _]|(_ & H & _)]; [vm_compute; reflexivity|discriminate|done].
Defined.

Lemma start_succeeds_iff_witness :
  (∃ s', start env_ok Options_default idle = (Normal true, s')) ∧
  ¬ (∃ s', start env_unsupported Options_default idle = (Normal true, s')).
Proof.
  split.
  - apply (start_succeeds_iff env_ok Options_default idle); try done.
    repeat split; eauto.
  - intros H.
    apply (start_succeeds_iff env_unsupported Options_default idle) in H;
      try done.
    by destruct H as (_ & _ & ? & _).
Defined.

Lemma start_two_sources_witness :
  ∃ s', start env_ok Options_default idle = (Normal true, s') ∧
        getStatus s'.1 = (true, 0).
Proof.
  destruct (start_two_sources env_ok Options_default idle [Audio] [Audio; Video])
    as (mic & sys & ctx & g & s' & H &
        _ & _ & _ & _ & _ & _ & _ & _ & _ & _ & _ & _ & Hstatus);
    try (intros; reflexivity).
  exists s'. split; [exact H|exact Hstatus].
Defined.

(** ** The API client: requests and outcomes *)

Lemma submitAudio_run (a : MeetingAPI) (log : list Request)
    beyond audioBlob sequence timestamp outcome :
  truthy (meetingId a) = true →
  submitAudio beyond audioBlob sequence timestamp outcome (a, log) =
    (settle SubmitError outcome,
     (a, log ++ [audio_request beyond a audioBlob sequence timestamp])).
Proof.
  intros Hid. unfold submitAudio, bind at 1, this at 1. cbn beta iota.
  cbn [fst]. rewrite Hid. cbn [negb].
  unfold try_catch, bind, this, fetch, response_json, ret, throw, settle.
  cbn beta iota. cbn [fst snd].
  destruct outcome as [response|e]; [|done].
  destruct (ok response); [|done]. cbn [negb].
  by destruct (json response).
Qed.

Lemma Number_toString_safe (beyond : N → string) (n : N) :
  (n ≤ MAX_SAFE_INTEGER)%N → Number_toString beyond n = pretty n.
Proof. intros H. unfold Number_toString. by rewrite decide_True. Qed.

(** X9. With a session active, [submitAudio] issues exactly one request,
    a credentialed POST to [<baseUrl>/<id>/audio] whose form carries the blob
    under the file name [audio_<sequence>.webm] and the sequence and the
    timestamp as the host prints these numbers, which is in decimal when they
    do not exceed [MAX_SAFE_INTEGER]; it leaves the client unchanged; a
    rejected fetch is rethrown as it is, a non-2xx response becomes the
    submit error with the status, and otherwise the result is that of reading
    the body. *)
Theorem submitAudio_outcomes (a : MeetingAPI) (log : list Request)
    beyond audioBlob sequence timestamp outcome :
  truthy (meetingId a) = true →
  (N.of_nat sequence ≤ MAX_SAFE_INTEGER)%N →
  (timestamp ≤ MAX_SAFE_INTEGER)%N →
  submitAudio beyond audioBlob sequence timestamp outcome (a, log) =
    (settle SubmitError outcome,
     (a, log ++
        [ {| url := baseUrl a +:+ "/" +:+ id_to_string (meetingId a) +:+ "/audio";
             method := "POST"; headers := [];
             body := FormData
               [ ("audio", FileField audioBlob
                             ("audio_" +:+ pretty sequence +:+ ".webm"));
                 ("sequence", TextField (pretty sequence));
                 ("timestamp", TextField (pretty timestamp)) ];
             credentials := "include" |} ])).
Proof.
  intros Hid Hseq Hts. rewrite submitAudio_run by done.
  unfold audio_request. by rewrite !Number_toString_safe.
Qed.

Lemma submitAudio_outcomes_witness :
  (submitAudio beyond_sample [Byte.x01] 1 169000000
     (ok_response {| speaker := None; transcript := Some "hello"; summary := None |})
     in_session).1
    = Normal {| speaker := None; transcript := Some "hello"; summary := None |} ∧
  (submitAudio beyond_sample [Byte.x01] 1 169000000 server_error in_session).1
    = Throw (SubmitError 500) ∧
  (submitAudio beyond_sample [Byte.x01] 1 169000000 server_error in_session).2.2
    = [ {| url := "https://chat.ecnu.edu.cn/api/meeting/m-123/audio";
           method := "POST"; headers := [];
           body := FormData
             [ ("audio", FileField [Byte.x01] "audio_1.webm");
               ("sequence", TextField "1");
               ("timestamp", TextField "169000000") ];
           credentials := "include" |} ].
Proof.
  change in_session with (in_session.1, in_session.2).
  rewrite !submitAudio_outcomes by (reflexivity || (vm_compute; discriminate)).
  repeat split.
Defined.



(** X11. From a client without session, a successful [createMeeting]
    returning a non-empty id, then a successful [submitAudio], then a
    successful [endMeeting], return the data of each call, issue three
    requests to [/create], [/<id>/audio] and [/<id>/end] with the returned
    id, and bring the client back to where it started; a further
    [endMeeting] then fails with the no-session error. *)
Theorem session_round_trip (a : MeetingAPI) (log : list Request)
    userId title created beyond audioBlob sequence timestamp heard ended :
  meetingId a = None →
  data_meetingId created ≠ EmptyString →
  let s1 := (createMeeting userId title (ok_response created) (a, log)).2 in
  let s2 := (submitAudio beyond audioBlob sequence timestamp
               (ok_response heard) s1).2 in
  let s3 := (endMeeting (ok_response ended) s2).2 in
  (submitAudio beyond audioBlob sequence timestamp (ok_response heard) s1).1
    = Normal heard ∧
  (endMeeting (ok_response ended) s2).1 = Normal ended ∧
  s3.1 = a ∧
  url <$> s3.2 =
    (url <$> log) ++
      [ baseUrl a +:+ "/create";
        baseUrl a +:+ "/" +:+ data_meetingId created +:+ "/audio";
        baseUrl a +:+ "/" +:+ data_meetingId created +:+ "/end" ] ∧
  ∀ outcome, endMeeting outcome s3 = (Throw NoActiveSessionError, s3).
Proof.
  intros Hnone Hid s1 s2 s3.
  assert (truthy (Some (data_meetingId created)) = true) as Htruthy.
  { simpl. destruct (String.eqb_spec (data_meetingId created) EmptyString);
      [done|done]. }
  subst s1 s2 s3. rewrite createMeeting_run. unfold ok_response.
  cbn [ok json snd].
  set (a1 := set_meetingId (Some (data_meetingId created)) a).
  rewrite (submitAudio_run a1) by done. cbn [settle ok json fst snd].
  rewrite (endMeeting_run a1) by done. cbn [ok json fst snd].
  split; [done|]. split; [done|]. split; [|split].
  - unfold a1. destruct a. simpl in *. by subst.
  - rewrite !fmap_app. simpl. by rewrite <- !app_assoc.
  - intros outcome. apply endMeeting_no_session. unfold a1. done.
Qed.

Lemma session_round_trip_witness :
  (endMeeting (ok_response {| finalSummary := "done"; duration := 60 |})
     (submitAudio beyond_sample [Byte.x01] 1 169000000
        (ok_response {| speaker := None; transcript := None; summary := None |})
        (createMeeting "u1" "Standup" (ok_response created) no_session).2).2).2
  = (MeetingAPI_new API_BASE_URL,
     [ create_request (MeetingAPI_new API_BASE_URL) "u1" "Standup";
       audio_request beyond_sample
         {| baseUrl := API_BASE_URL; meetingId := Some "m-456" |}
         [Byte.x01] 1 169000000;
       end_request {| baseUrl := API_BASE_URL; meetingId := Some "m-456" |} ]).
Proof.
  destruct (session_round_trip (MeetingAPI_new API_BASE_URL) [] "u1" "Standup"
              created beyond_sample [Byte.x01] 1 169000000
              {| speaker := None; transcript := None; summary := None |}
              {| finalSummary := "done"; duration := 60 |})
    as (_ & _ & Hclient & _); [reflexivity|discriminate|].
  apply injective_projections; [exact Hclient|reflexivity].
Defined.

Lemma submitAudio_no_session (a : MeetingAPI) (log : list Request)
    beyond audioBlob sequence timestamp outcome :
  truthy (meetingId a) = false →
  submitAudio beyond audioBlob sequence timestamp outcome (a, log)
    = (Throw NoActiveSessionError, (a, log)).
Proof.
  intros Hid. unfold submitAudio, bind, this. cbn beta iota. cbn [fst].
  by rewrite Hid.
Qed.

(** X12. When the service answers a creation with an empty meeting
    id, [createMeeting] succeeds and stores it, and the client is then
    unusable: [submitAudio] and [endMeeting] both throw the no-session error
    without issuing a request, since the guard tests truthiness. *)
Theorem createMeeting_empty_id (a : MeetingAPI) (log : list Request)
    userId title created :
  data_meetingId created = EmptyString →
  ∃ s1, createMeeting userId title (ok_response created) (a, log)
          = (Normal created, s1) ∧
        getMeetingId s1.1 = Some EmptyString ∧
        (∀ beyond audioBlob sequence timestamp outcome,
           submitAudio beyond audioBlob sequence timestamp outcome s1
             = (Throw NoActiveSessionError, s1)) ∧
        (∀ outcome, endMeeting outcome s1 = (Throw NoActiveSessionError, s1)).
Proof.
  intros Hid. rewrite createMeeting_run. unfold ok_response. cbn [ok json].
  eexists. split; [done|]. cbn [fst]. unfold getMeetingId. simpl.
  rewrite Hid. split; [done|]. split.
  - intros. by apply submitAudio_no_session.
  - intros. by apply endMeeting_no_session.
Qed.

Lemma createMeeting_empty_id_witness :
  ∃ s1, createMeeting "u1" "Standup"
          (ok_response {| data_meetingId := EmptyString; data_status := "created" |})
          no_session
          = (Normal {| data_meetingId := EmptyString; data_status := "created" |}, s1) ∧
        (submitAudio beyond_sample [Byte.x01] 1 169000000 server_error s1).1
          = Throw NoActiveSessionError.
Proof.
  destruct (createMeeting_empty_id (MeetingAPI_new API_BASE_URL) [] "u1" "Standup"
              {| data_meetingId := EmptyString; data_status := "created" |})
    as (s1 & H1 & _ & H2 & _); [reflexivity|].
  exists s1. split; [exact H1|]. by rewrite H2.
Defined.


(** ** The upload script: comparing versions *)

Lemma js_lt_asym (x y : JsNumber) : js_lt x y = true → js_lt y x = false.
Proof.
  destruct x as [|[]|a], y as [|[]|b]; simpl; try done.
  intros H%bool_decide_eq_true_1. apply bool_decide_eq_false_2.
  intros H'. exact (Qcanon.Qclt_not_le _ _ H (Qcanon.Qclt_le_weak _ _ H')).
Qed.

Lemma js_lt_trans (x y z : JsNumber) :
  js_lt x y = true → js_lt y z = true → js_lt x z = true.
Proof.
  destruct x as [|[]|a], y as [|[]|b], z as [|[]|c]; simpl; try done.
  intros H1%bool_decide_eq_true_1 H2%bool_decide_eq_true_1.
  apply bool_decide_eq_true_2. by apply Qcanon.Qclt_trans with b.
Qed.

Lemma or_zero_not_NaN (x : option JsNumber) : or_zero x ≠ NaN.
Proof. destruct x as [[|?|q]|]; simpl; try done. by case_bool_decide. Qed.

(** Two numbers neither of which is below the other, and neither NaN, are
    the same number. *)
Lemma js_lt_neither (x y : JsNumber) :
  x ≠ NaN → y ≠ NaN → js_lt x y = false → js_lt y x = false → x = y.
Proof.
  destruct x as [|[]|a], y as [|[]|b]; simpl; try done.
  intros _ _ H1%bool_decide_eq_false_1 H2%bool_decide_eq_false_1.
  f_equal. apply Qcanon.Qcle_antisym; by apply Qcanon.Qcnot_lt_le.
Qed.

Lemma js_lt_irrefl (x : JsNumber) : js_lt x x = false.
Proof.
  destruct (js_lt x x) eqn:H; [|done]. by rewrite (js_lt_asym x x H) in H.
Qed.

Lemma compare_from_range (pa pb : list JsNumber) (i n : nat) :
  compare_from pa pb i n ∈ [-1; 0; 1]%Z.
Proof.
  revert i. induction n as [|n IH]; intros i; simpl.
  - set_solver.
  - destruct (js_gt _ _); [set_solver|]. destruct (js_lt _ _); [set_solver|].
    apply IH.
Qed.

Lemma compare_from_antisym (pa pb : list JsNumber) (i n : nat) :
  compare_from pb pa i n = (- compare_from pa pb i n)%Z.
Proof.
  revert i. induction n as [|n IH]; intros i; simpl; [done|].
  unfold js_gt.
  destruct (js_lt (or_zero (pa !! i)) (or_zero (pb !! i))) eqn:Hab.
  - rewrite (js_lt_asym _ _ Hab). done.
  - destruct (js_lt (or_zero (pb !! i)) (or_zero (pa !! i))) eqn:Hba; [done|].
    apply IH.
Qed.

(** Rounds past the end of both lists compare zero with zero. *)
Lemma compare_from_past (pa pb : list JsNumber) (i k : nat) :
  (length pa ≤ i)%nat → (length pb ≤ i)%nat → compare_from pa pb i k = 0%Z.
Proof.
  revert i. induction k as [|k IH]; intros i Ha Hb; simpl; [done|].
  rewrite !lookup_ge_None_2 by lia. unfold js_gt.
  rewrite js_lt_irrefl. apply IH; lia.
Qed.

Lemma compare_from_more (pa pb : list JsNumber) (i n k : nat) :
  (length pa `max` length pb ≤ i + n)%nat →
  compare_from pa pb i (n + k) = compare_from pa pb i n.
Proof.
  revert i. induction n as [|n IH]; intros i Hn; simpl.
  - apply compare_from_past; lia.
  - destruct (js_gt _ _); [done|]. destruct (js_lt _ _); [done|].
    apply IH. lia.
Qed.

(** The loop sees the lists only through [pa[i] || 0]. *)
Lemma compare_from_ext (pa pa' pb pb' : list JsNumber) (i n : nat) :
  (∀ j, or_zero (pa !! j) = or_zero (pa' !! j)) →
  (∀ j, or_zero (pb !! j) = or_zero (pb' !! j)) →
  compare_from pa pb i n = compare_from pa' pb' i n.
Proof.
  intros Ha Hb. revert i. induction n as [|n IH]; intros i; simpl; [done|].
  by rewrite Ha, Hb, IH.
Qed.

Lemma compare_from_trans (pa pb pc : list JsNumber) (i n : nat) :
  (compare_from pa pb i n ≤ 0)%Z → (compare_from pb pc i n ≤ 0)%Z →
  (compare_from pa pc i n ≤ 0)%Z.
Proof.
  revert i. induction n as [|n IH]; intros i; simpl; [done|].
  unfold js_gt.
  set (x := or_zero (pa !! i)). set (y := or_zero (pb !! i)).
  set (z := or_zero (pc !! i)).
  assert (x ≠ NaN ∧ y ≠ NaN ∧ z ≠ NaN) as (Hx & Hy & Hz)
    by (repeat split; apply or_zero_not_NaN).
  clearbody x y z.
  destruct (js_lt y x) eqn:Hyx; [lia|].
  destruct (js_lt z y) eqn:Hzy; [lia|].
  destruct (js_lt x y) eqn:Hxy, (js_lt y z) eqn:Hyz.
  - intros _ _. by rewrite (js_lt_asym x z), (js_lt_trans x y z)
      by eauto using js_lt_trans.
  - intros _ _. assert (y = z) as <- by by apply js_lt_neither.
    by rewrite Hyx, Hxy.
  - intros _ _. assert (x = y) as -> by by apply js_lt_neither.
    by rewrite Hzy, Hyz.
  - assert (x = y) as -> by by apply js_lt_neither.
    assert (y = z) as <- by by apply js_lt_neither.
    rewrite Hyx. apply IH.
Qed.

(** X14. Whatever [Number] does, [compareVersion] returns -1, 0 or
    1, swapping its arguments negates the result, and a version compares
    equal to itself. *)
Theorem compareVersion_antisym (Number : JsString → JsNumber) (a b : JsString) :
  compareVersion Number b a = (- compareVersion Number a b)%Z ∧
  compareVersion Number a a = 0%Z ∧
  compareVersion Number a b ∈ [-1; 0; 1]%Z.
Proof.
  unfold compareVersion. split; [|split].
  - rewrite (Nat.max_comm (length (Number <$> split_dot b))).
    apply compare_from_antisym.
  - pose proof (compare_from_antisym (Number <$> split_dot a)
                  (Number <$> split_dot a) 0
                  (length (Number <$> split_dot a)
                     `max` length (Number <$> split_dot a))). lia.
  - apply compare_from_range.
Qed.

(** X15. Whatever [Number] does, not-newer-than is transitive: if
    [a] is not newer than [b] and [b] not newer than [c], then [a] is not
    newer than [c]. *)
Theorem compareVersion_trans (Number : JsString → JsNumber) (a b c : JsString) :
  (compareVersion Number a b ≤ 0)%Z → (compareVersion Number b c ≤ 0)%Z →
  (compareVersion Number a c ≤ 0)%Z.
Proof.
  unfold compareVersion.
  set (pa := Number <$> split_dot a). set (pb := Number <$> split_dot b).
  set (pc := Number <$> split_dot c).
  set (n := (length pa `max` length pb) `max` length pc).
  rewrite <- (compare_from_more pa pb 0 _ (n - (length pa `max` length pb)))
    by lia.
  rewrite <- (compare_from_more pb pc 0 _ (n - (length pb `max` length pc)))
    by lia.
  rewrite <- (compare_from_more pa pc 0 _ (n - (length pa `max` length pc)))
    by lia.
  replace (length pa `max` length pb + (n - (length pa `max` length pb)))
    with n by lia.
  replace (length pb `max` length pc + (n - (length pb `max` length pc)))
    with n by lia.
  replace (length pa `max` length pc + (n - (length pa `max` length pc)))
    with n by lia.
  apply compare_from_trans.
Qed.

Lemma compareVersion_trans_witness :
  (compareVersion digits_Number (js "1.2.9") (js "1.10") ≤ 0)%Z.
Proof.
  apply (compareVersion_trans digits_Number (js "1.2.9") (js "1.3.0") (js "1.10"));
    by vm_compute.
Defined.

Lemma split_dot_cons (s : JsString) : ∃ part parts, split_dot s = part :: parts.
Proof.
  induction s as [|c s (part & parts & IH)]; simpl; [eauto|].
  case_bool_decide; [eauto|]. rewrite IH. eauto.
Qed.

Lemma split_dot_no_dot (s : JsString) : 46%N ∉ s → split_dot s = [s].
Proof.
  induction s as [|c s IH]; simpl; [done|].
  intros [Hc Hs]%not_elem_of_cons. rewrite bool_decide_eq_false_2 by done.
  by rewrite IH.
Qed.

Lemma split_dot_app (a part : JsString) :
  46%N ∉ part → split_dot (a ++ 46%N :: part) = split_dot a ++ [part].
Proof.
  intros Hpart. induction a as [|c a IH]; simpl.
  - by rewrite split_dot_no_dot.
  - case_bool_decide; [by rewrite IH|]. rewrite IH.
    by destruct (split_dot_cons a) as (p & ps & ->).
Qed.

Lemma or_zero_snoc (pa : list JsNumber) (z : JsNumber) (j : nat) :
  falsy z = true → or_zero ((pa ++ [z]) !! j) = or_zero (pa !! j).
Proof.
  intros Hz. destruct (decide (j < length pa)) as [Hlt|Hge].
  - by rewrite lookup_app_l.
  - rewrite (lookup_ge_None_2 pa) by lia. rewrite lookup_app_r by lia.
    destruct (j - length pa) as [|k]; simpl; [by rewrite Hz|done].
Qed.

(** X16. A last component that [Number] turns into zero or NaN
    does not count, on either side: ["1.2.0"] compares like ["1.2"], and a
    pre-release suffix as in ["2.0.0-beta"] makes the last component NaN, so
    that version compares like ["2.0"]. *)
Theorem compareVersion_trailing (Number : JsString → JsNumber)
    (a part b : JsString) :
  46%N ∉ part → falsy (Number part) = true →
  compareVersion Number (a ++ js "." ++ part) b = compareVersion Number a b ∧
  compareVersion Number b (a ++ js "." ++ part) = compareVersion Number b a.
Proof.
  intros Hpart Hfalsy. change (js "." ++ part) with (46%N :: part).
  unfold compareVersion. rewrite split_dot_app by done.
  rewrite fmap_app. simpl.
  set (pa := Number <$> split_dot a). set (pb := Number <$> split_dot b).
  rewrite length_app. simpl. split.
  - rewrite (compare_from_ext _ pa pb pb) by
      first [done | intros; apply or_zero_snoc; done].
    destruct (decide (length pa < length pb)) as [Hlt|Hge].
    + replace ((length pa + 1) `max` length pb)
        with (length pa `max` length pb) by lia. done.
    + replace ((length pa + 1) `max` length pb)
        with (length pa `max` length pb + 1) by lia.
      apply compare_from_more. lia.
  - rewrite (compare_from_ext pb pb _ pa) by
      first [done | intros; apply or_zero_snoc; done].
    destruct (decide (length pa < length pb)) as [Hlt|Hge].
    + replace (length pb `max` (length pa + 1))
        with (length pb `max` length pa) by lia. done.
    + replace (length pb `max` (length pa + 1))
        with (length pb `max` length pa + 1) by lia.
      apply compare_from_more. lia.
Qed.

Lemma compareVersion_trailing_witness :
  compareVersion digits_Number (js "2.0.0-beta") (js "2.0.0") = 0%Z ∧
  compareVersion digits_Number (js "1.2") (js "1.2.0") = 0%Z.
Proof.
  destruct (compareVersion_trailing digits_Number (js "2.0") (js "0-beta")
              (js "2.0.0")) as [H1 _].
  { vm_compute. set_solver. }
  { reflexivity. }
  destruct (compareVersion_trailing digits_Number (js "1.2") (js "0")
              (js "1.2")) as [_ H2].
  { vm_compute. set_solver. }
  { reflexivity. }
  split.
  - etrans; [exact H1|]. by vm_compute.
  - etrans; [exact H2|]. by vm_compute.
Defined.

(** ** The upload script: reading the version *)

Lemma startsWith_app (p post : JsString) : startsWith p (p ++ post) = true.
Proof.
  induction p as [|c p IH]; simpl; [done|].
  by rewrite bool_decide_eq_true_2.
Qed.

Lemma startsWith_inv (p s : JsString) :
  startsWith p s = true → ∃ post, s = p ++ post.
Proof.
  revert s. induction p as [|c p IH]; intros s; simpl; [eauto|].
  destruct s as [|d s]; [done|].
  intros [->%bool_decide_eq_true_1 [post ->]%IH]%andb_true_iff. eauto.
Qed.

Lemma take_while_app (f : N → bool) (v rest : JsString) :
  Forall (λ c, f c = true) v →
  (∀ c, head rest = Some c → f c = false) →
  take_while f (v ++ rest) = v.
Proof.
  intros Hv Hrest. induction Hv as [|c v Hc Hv IH]; simpl.
  - destruct rest as [|c rest]; [done|]. simpl. by rewrite Hrest.
  - by rewrite Hc, IH.
Qed.

Lemma match_spaces_skip (ws s : JsString) (group : JsString) :
  Forall (λ c, is_white_space c = true) ws →
  match_spaces s = Some group →
  match_spaces (ws ++ s) = Some group.
Proof.
  intros Hws Hs. induction Hws as [|c ws Hc Hws IH]; simpl; [done|].
  by rewrite Hc, IH.
Qed.

Lemma first_match_here (s group : JsString) :
  match_here s = Some group → first_match true s = Some group.
Proof. intros H. destruct s; cbn [first_match]; by rewrite H. Qed.

(** X17. When the content starts with [version:], then any white
    space (line breaks included), then a run of characters up to the end of
    its line that starts with a non-blank, [parseVersion] returns that run
    trimmed.  An empty value thus picks up the next line. *)
Theorem parseVersion_first_line (ws v rest : JsString) :
  Forall (λ c, is_white_space c = true) ws →
  (∃ c v', v = c :: v' ∧ is_white_space c = false) →
  Forall (λ c, is_line_terminator c = false) v →
  (∀ c, head rest = Some c → is_line_terminator c = true) →
  parseVersion (js "version:" ++ ws ++ v ++ rest) = Some (trim v).
Proof.
  intros Hws (c & v' & -> & Hc) Hv Hrest.
  unfold parseVersion.
  rewrite (first_match_here _ (c :: v')); [done|].
  unfold match_here. rewrite startsWith_app.
  change (drop 8 (js "version:" ++ ws ++ (c :: v') ++ rest))
    with (ws ++ (c :: v') ++ rest).
  apply match_spaces_skip; [done|].
  cbn [app match_spaces]. rewrite Hc. unfold match_group.
  change (c :: v' ++ rest) with ((c :: v') ++ rest).
  rewrite take_while_app; [done| |].
  - eapply Forall_impl; [exact Hv|]. simpl. by intros ? ->.
  - intros d Hd. by rewrite (Hrest d Hd).
Qed.

Lemma parseVersion_first_line_witness :
  parseVersion (js "version: 1.2.3 " ++ [13; 10]%N ++ js "files:")
    = Some (js "1.2.3") ∧
  parseVersion (js "version:" ++ [10]%N ++ js "path: app.exe")
    = Some (js "path: app.exe").
Proof.
  split.
  - etrans; [apply (parseVersion_first_line (js " ") (js "1.2.3 ")
                      ([13; 10]%N ++ js "files:"))|by vm_compute].
    + repeat constructor.
    + by exists 49%N, (js ".2.3 ").
    + repeat constructor.
    + by intros c [= <-].
  - etrans; [apply (parseVersion_first_line [10]%N (js "path: app.exe") [])
            |by vm_compute].
    + repeat constructor.
    + by exists 112%N, (js "ath: app.exe").
    + repeat constructor.
    + by intros c [=].
Defined.

Lemma match_here_some (s group : JsString) :
  match_here s = Some group → startsWith (js "version:") s = true.
Proof. unfold match_here. by destruct (startsWith _ s). Qed.

Lemma first_match_some (line_start : bool) (s group : JsString) :
  first_match line_start s = Some group →
  (line_start = true ∧ startsWith (js "version:") s = true) ∨
  ∃ pre c post, s = pre ++ c :: js "version:" ++ post ∧
                is_line_terminator c = true.
Proof.
  revert line_start. induction s as [|c s IH]; intros b; cbn [first_match].
  - destruct b; [|done].
    destruct (match_here []) eqn:H; [|done]. intros _. left.
    split; [done|]. by apply match_here_some in H.
  - destruct (if b then match_here (c :: s) else None) as [g|] eqn:H.
    + intros _. left. destruct b; [|done]. split; [done|].
      by apply match_here_some in H.
    + intros [[Hc Hs]|(pre & d & post & -> & Hd)]%IH; right.
      * apply startsWith_inv in Hs as [post ->]. by exists [], c, post.
      * by exists (c :: pre), d, post.
Qed.

(** X18. [parseVersion] returns a version only when [version:]
    stands at the start of the content or right after a line terminator. *)
Theorem parseVersion_some_line (content : JsString) :
  is_Some (parseVersion content) →
  ∃ pre post, content = pre ++ js "version:" ++ post ∧
    (pre = [] ∨ ∃ pre' c, pre = pre' ++ [c] ∧ is_line_terminator c = true).
Proof.
  intros [v Hv]. unfold parseVersion in Hv.
  destruct (first_match true content) as [group|] eqn:Hm; [|done].
  apply first_match_some in Hm as [[_ Hs]|(pre & c & post & -> & Hc)].
  - apply startsWith_inv in Hs as [post ->]. exists [], post. eauto.
  - exists (pre ++ [c]), post. rewrite <- app_assoc. eauto 10.
Qed.

Lemma parseVersion_some_line_witness :
  ∃ pre post,
    js "path: app.exe" ++ [10]%N ++ js "version: 1.2.3"
      = pre ++ js "version:" ++ post ∧
    (pre = [] ∨ ∃ pre' c, pre = pre' ++ [c] ∧ is_line_terminator c = true).
Proof.
  apply parseVersion_some_line. vm_compute. eauto.
Defined.

Lemma drop_while_head (f : N → bool) (s : JsString) (c : N) :
  head (drop_while f s) = Some c → f c = false.
Proof.
  induction s as [|d s IH]; simpl; [done|].
  destruct (f d) eqn:Hd; [done|]. simpl. by intros [= <-].
Qed.

Lemma drop_while_suffix (f : N → bool) (s : JsString) :
  ∃ pre, s = pre ++ drop_while f s.
Proof.
  induction s as [|d s [pre IH]]; simpl; [by exists []|].
  destruct (f d); [|by exists []]. exists (d :: pre). simpl. by f_equal.
Qed.

Lemma drop_while_Forall (P : N → Prop) (f : N → bool) (s : JsString) :
  Forall P s → Forall P (drop_while f s).
Proof.
  intros H. destruct (drop_while_suffix f s) as [pre Hs].
  rewrite Hs in H. by apply Forall_app in H as [_ ?].
Qed.

Lemma take_while_Forall (f : N → bool) (s : JsString) :
  Forall (λ c, f c = true) (take_while f s).
Proof.
  induction s as [|d s IH]; simpl; [done|].
  destruct (f d) eqn:Hd; [by constructor|done].
Qed.

Lemma match_group_some (s group : JsString) :
  match_group s = Some group →
  group ≠ [] ∧ Forall (λ c, is_line_terminator c = false) group.
Proof.
  unfold match_group.
  pose proof (take_while_Forall (λ c, negb (is_line_terminator c)) s) as H.
  destruct (take_while _ s) as [|c run]; [done|]. intros [= <-].
  split; [done|]. eapply Forall_impl; [exact H|]. simpl.
  by intros ? ?%negb_true_iff.
Qed.

Lemma match_spaces_some (s group : JsString) :
  match_spaces s = Some group →
  group ≠ [] ∧ Forall (λ c, is_line_terminator c = false) group.
Proof.
  induction s as [|c s IH]; simpl; [apply match_group_some|].
  destruct (is_white_space c); [|apply match_group_some].
  destruct (match_spaces s); [apply IH|apply match_group_some].
Qed.

Lemma first_match_group (line_start : bool) (s group : JsString) :
  first_match line_start s = Some group →
  group ≠ [] ∧ Forall (λ c, is_line_terminator c = false) group.
Proof.
  assert (∀ s', match_here s' = Some group →
            group ≠ [] ∧ Forall (λ c, is_line_terminator c = false) group)
    as Hhere.
  { intros s'. unfold match_here. destruct (startsWith _ s'); [|done].
    apply match_spaces_some. }
  revert line_start. induction s as [|c s IH]; intros b; cbn [first_match].
  - destruct b; [|done]. destruct (match_here []) eqn:H; [|done].
    intros [= ->]. by apply Hhere in H.
  - destruct (if b then match_here (c :: s) else None) as [g|] eqn:H.
    + intros [= ->]. destruct b; [|done]. by apply Hhere in H.
    + apply IH.
Qed.

(** X19. A version returned by [parseVersion] neither starts nor ends
    with white space and holds no line terminator. *)
Theorem parseVersion_trimmed (content v : JsString) :
  parseVersion content = Some v →
  (∀ c, head v = Some c → is_white_space c = false) ∧
  (∀ c, last v = Some c → is_white_space c = false) ∧
  Forall (λ c, is_line_terminator c = false) v.
Proof.
  unfold parseVersion.
  destruct (first_match true content) as [group|] eqn:Hm; [|done].
  intros [= <-]. apply first_match_group in Hm as [_ Hgroup].
  unfold trim. set (s1 := drop_while is_white_space group).
  set (s2 := drop_while is_white_space (reverse s1)).
  split; [|split].
  - intros c. rewrite head_reverse. intros Hlast.
    destruct (drop_while_suffix is_white_space (reverse s1)) as [pre Hpre].
    fold s2 in Hpre.
    assert (head s1 = Some c) as Hhead.
    { rewrite <- last_reverse, Hpre, last_app. by rewrite Hlast. }
    by apply drop_while_head in Hhead.
  - intros c. rewrite last_reverse. apply drop_while_head.
  - apply Forall_reverse, drop_while_Forall, Forall_reverse,
      drop_while_Forall, Hgroup.
Qed.

Lemma parseVersion_trimmed_witness :
  Forall (λ c, is_line_terminator c = false) (js "1.2.3").
Proof.
  apply (parseVersion_trimmed
           (js "version:  1.2.3  " ++ [13; 10]%N ++ js "files:") (js "1.2.3")).
  vm_compute. reflexivity.
Defined.

Lemma match_spaces_blank (ws : JsString) :
  ws ≠ [] →
  Forall (λ c, is_white_space c = true ∧ is_line_terminator c = false) ws →
  ∃ c, last ws = Some c ∧ match_spaces ws = Some [c].
Proof.
  intros Hne Hws. induction Hws as [|c ws [Hc Hnt] Hws IH]; [done|].
  simpl. rewrite Hc. destruct ws as [|d ws].
  - exists c. split; [done|]. simpl. unfold match_group. simpl.
    by rewrite Hnt.
  - destruct IH as (e & He & ->); [done|]. exists e. split; [|done].
    by rewrite last_cons, He.
Qed.

(** X20. When the content is [version:] followed by blanks only,
    [parseVersion] returns the empty string, not null. *)
Theorem parseVersion_blank (ws : JsString) :
  ws ≠ [] →
  Forall (λ c, is_white_space c = true ∧ is_line_terminator c = false) ws →
  parseVersion (js "version:" ++ ws) = Some [].
Proof.
  intros Hne Hws. unfold parseVersion.
  destruct (match_spaces_blank ws Hne Hws) as (c & Hlast & Hm).
  rewrite (first_match_here _ [c]).
  - unfold trim. simpl.
    assert (is_white_space c = true) as ->; [|done].
    apply last_Some_elem_of in Hlast.
    by apply (proj1 (Forall_forall _ _) Hws c) in Hlast as [? _].
  - unfold match_here. rewrite startsWith_app.
    by change (drop 8 (js "version:" ++ ws)) with ws.
Qed.

Lemma parseVersion_blank_witness :
  parseVersion (js "version:   ") = Some [].
Proof.
  apply (parseVersion_blank (js "   ")); [done|]. repeat constructor.
Defined.

(** ** The upload script: what is uploaded *)

Lemma put_entry_ok (disk : Disk) (bucket : Bucket) (f : JsString)
    (calls : list OssCall) (size : N) :
  statSync disk f = Normal size →
  put_entry disk bucket f calls = (Normal tt, calls ++ [put_call f]).
Proof.
  intros H. unfold put_entry, bind, host_call, try_catch, client_put.
  rewrite H. by destruct (put_result bucket (OSS_PREFIX ++ f)).
Qed.

Lemma put_entry_throw (disk : Disk) (bucket : Bucket) (f : JsString)
    (calls : list OssCall) (e : JsError) :
  statSync disk f = Throw e →
  put_entry disk bucket f calls = (Throw e, calls).
Proof. intros H. unfold put_entry, bind, host_call. by rewrite H. Qed.

(** The loop of [upload] puts the entries in order until [statSync] throws. *)
Lemma upload_loop (disk : Disk) (bucket : Bucket)
    (files : list JsString) (calls : list OssCall) :
  ∃ c done rest,
    forEach (put_entry disk bucket) files calls
      = (c, calls ++ (put_call <$> done)) ∧
    files = done ++ rest ∧
    Forall (λ f, ∃ size, statSync disk f = Normal size) done ∧
    match c with
    | Normal _ => rest = []
    | Throw e => ∃ f rest', rest = f :: rest' ∧ statSync disk f = Throw e
    end.
Proof.
  revert calls. induction files as [|f files IH]; intros calls.
  - exists (Normal tt), [], []. simpl. by rewrite app_nil_r.
  - cbn [forEach]. destruct (statSync disk f) as [size|e] eqn:Hstat.
    + erewrite bind_normal by (by eapply put_entry_ok).
      destruct (IH (calls ++ [put_call f]))
        as (c & done & rest & -> & -> & Hdone & Hc).
      exists c, (f :: done), rest. simpl. rewrite <- app_assoc.
      split; [done|]. split; [done|]. split; [constructor; eauto|done].
    + erewrite bind_throw by (by eapply put_entry_throw).
      exists (Throw e), [], (f :: files). simpl. rewrite app_nil_r.
      split; [done|]. split; [done|]. split; [done|]. eauto.
Qed.

Lemma put_entry_guarded_run (disk : Disk) (bucket : Bucket) (f : JsString)
    (calls : list OssCall) :
  put_entry_guarded disk bucket f calls =
    (Normal tt,
     calls ++ match statSync disk f with
              | Normal _ => [put_call f]
              | Throw _ => []
              end).
Proof.
  unfold put_entry_guarded, bind, host_call, try_catch, client_put.
  destruct (statSync disk f).
  - by destruct (put_result bucket (OSS_PREFIX ++ f)).
  - unfold ret. by rewrite app_nil_r.
Qed.

Lemma upload_all_loop (disk : Disk) (bucket : Bucket)
    (files : list JsString) (calls : list OssCall) :
  forEach (put_entry_guarded disk bucket) files calls
    = (Normal tt, calls ++ (put_call <$> List.filter (readable disk) files)).
Proof.
  revert calls. induction files as [|f files IH]; intros calls.
  - simpl. unfold ret. by rewrite app_nil_r.
  - cbn [forEach]. erewrite bind_normal by apply put_entry_guarded_run.
    rewrite IH. simpl. unfold readable at 2.
    destruct (statSync disk f); simpl; by rewrite <- app_assoc.
Qed.

(** [upload] once [dist/latest.yml] has been read. *)
Lemma upload_run (Number : JsString → JsNumber) (disk : Disk) (bucket : Bucket)
    (calls : list OssCall) (content : JsString) :
  existsSync disk = true → readFileSync disk = Normal content →
  upload Number disk bucket calls =
    let calls1 := calls ++ [OssGet (OSS_PREFIX ++ latest_yml)] in
    match remote_version bucket with
    | Some (c :: b) =>
        match parseVersion content with
        | Some a =>
            if bool_decide (compareVersion Number a (c :: b) ≤ 0)%Z
            then (Normal tt, calls1)
            else upload_files disk bucket (parseVersion content) calls1
        | None => (Throw TypeError, calls1)
        end
    | _ => upload_files disk bucket (parseVersion content) calls1
    end.
Proof.
  intros Hex Hread. unfold upload. rewrite Hex. cbn [negb].
  unfold bind at 1, host_call at 1. rewrite Hread. cbn beta iota zeta.
  unfold bind at 1, try_catch at 1, bind at 1, client_get at 1, remote_version.
  destruct (get_result bucket) as [remote|e]; cbn beta iota.
  - unfold ret at 1. cbn beta iota.
    destruct (parseVersion remote) as [[|c b]|]; try done.
    destruct (parseVersion content) as [a|]; [|done].
    unfold bind at 1, ret at 1. cbn beta iota.
    by destruct (bool_decide _).
  - done.
Qed.

(** X21. When [dist/latest.yml] and the remote [latest.yml] both carry
    a version and the local one is not newer, [upload] resolves after reading
    the remote file and uploads nothing. *)
Theorem upload_skips (Number : JsString → JsNumber) (disk : Disk)
    (bucket : Bucket) (calls : list OssCall) content a remote c b :
  existsSync disk = true → readFileSync disk = Normal content →
  parseVersion content = Some a →
  get_result bucket = Normal remote → parseVersion remote = Some (c :: b) →
  (compareVersion Number a (c :: b) ≤ 0)%Z →
  upload Number disk bucket calls
    = (Normal tt, calls ++ [OssGet (OSS_PREFIX ++ latest_yml)]).
Proof.
  intros Hex Hread Hlocal Hget Hremote Hcmp.
  rewrite (upload_run Number disk bucket calls content) by done.
  unfold remote_version. rewrite Hget, Hremote, Hlocal. cbn zeta.
  by rewrite bool_decide_eq_true_2.
Qed.

Lemma upload_skips_witness :
  upload digits_Number disk_1_3 bucket_1_3 []
    = (Normal tt, [OssGet (js "chatecnu-desktop/releases/latest.yml")]).
Proof.
  apply (upload_skips digits_Number disk_1_3 bucket_1_3 []
           (js "version: 1.3.0" ++ [10]%N ++ js "path: app-1.3.0.exe")
           (js "1.3.0") (js "version: 1.3.0") 49%N (js ".3.0"));
    by vm_compute.
Defined.

Lemma upload_run_newer (Number : JsString → JsNumber) (disk : Disk)
    (bucket : Bucket) (calls : list OssCall) (content : JsString) :
  existsSync disk = true → readFileSync disk = Normal content →
  newer Number (parseVersion content) bucket →
  upload Number disk bucket calls =
    upload_files disk bucket (parseVersion content)
      (calls ++ [OssGet (OSS_PREFIX ++ latest_yml)]).
Proof.
  intros Hex Hread Hnewer.
  rewrite (upload_run Number disk bucket calls content) by done. cbn zeta.
  destruct Hnewer as [Hnone|(a & c & b & -> & -> & Hcmp)].
  - by destruct (remote_version bucket) as [[|??]|].
  - by rewrite bool_decide_eq_false_2 by lia.
Qed.

(** X22. When the local version is newer than the remote one, or the
    bucket has none, and every wanted entry of [dist] can be examined,
    [upload] resolves after putting, in directory order, exactly [latest.yml]
    and the [.exe] and [.blockmap] entries whose name contains the local
    version, each under the release prefix with its own name.  A failed put
    stops nothing. *)
Theorem upload_newer (Number : JsString → JsNumber) (disk : Disk)
    (bucket : Bucket) (calls : list OssCall) content names :
  existsSync disk = true → readFileSync disk = Normal content →
  newer Number (parseVersion content) bucket →
  readdirSync disk = Normal names →
  Forall (λ f, ∃ size, statSync disk f = Normal size)
    (List.filter (wanted (parseVersion content)) names) →
  upload Number disk bucket calls =
    (Normal tt,
     calls ++ [OssGet (OSS_PREFIX ++ latest_yml)]
           ++ (put_call <$> List.filter (wanted (parseVersion content)) names)).
Proof.
  intros Hex Hread Hnewer Hdir Hstat.
  rewrite (upload_run_newer Number disk bucket calls content) by done.
  unfold upload_files, bind, host_call. rewrite Hdir.
  set (files := List.filter _ names) in *. clearbody files.
  rewrite app_assoc.
  generalize (calls ++ [OssGet (OSS_PREFIX ++ latest_yml)]). intros calls1.
  revert calls1. induction Hstat as [|f files [size Hf] Hfiles IH]; intros calls1.
  - simpl. unfold ret. by rewrite app_nil_r.
  - cbn [forEach]. erewrite bind_normal by (by eapply put_entry_ok).
    rewrite IH. simpl. by rewrite <- app_assoc.
Qed.

Lemma upload_newer_witness :
  upload digits_Number disk_1_3 bucket_1_2 []
    = (Normal tt,
       [ OssGet (js "chatecnu-desktop/releases/latest.yml");
         put_call (js "app-1.3.0.exe");
         put_call (js "app-1.3.0.exe.blockmap");
         put_call (js "latest.yml") ]).
Proof.
  etrans.
  - apply (upload_newer digits_Number disk_1_3 bucket_1_2 []
             (js "version: 1.3.0" ++ [10]%N ++ js "path: app-1.3.0.exe")
             [ js "app-1.2.0.exe"; js "app-1.3.0.exe";
               js "app-1.3.0.exe.blockmap"; js "latest.yml";
               js "builder-debug.yml" ]); try done.
    + right. exists (js "1.3.0"), 49%N, (js ".2.0"). by vm_compute.
    + apply Forall_forall. intros. by exists 1048576%N.
  - by vm_compute.
Defined.

(** X23. When [statSync] throws on a wanted entry, the version-aware
    [upload] rejects with that error and puts none of the later entries,
    since the call stands outside its [try]; the other revision of [upload]
    has it inside, resolves, and puts every wanted entry that can be
    examined. *)
Theorem upload_stat_failure (Number : JsString → JsNumber) (disk : Disk)
    (bucket : Bucket) (calls : list OssCall) content names before f after e :
  existsSync disk = true → readFileSync disk = Normal content →
  newer Number (parseVersion content) bucket →
  readdirSync disk = Normal names →
  List.filter (wanted (parseVersion content)) names = before ++ f :: after →
  Forall (λ f, ∃ size, statSync disk f = Normal size) before →
  statSync disk f = Throw e →
  upload Number disk bucket calls =
    (Throw e,
     calls ++ [OssGet (OSS_PREFIX ++ latest_yml)] ++ (put_call <$> before)) ∧
  upload_all disk bucket calls =
    (Normal tt,
     calls ++ (put_call <$> List.filter (readable disk)
                              (List.filter wanted_all names))).
Proof.
  intros Hex Hread Hnewer Hdir Hfiles Hbefore Hf. split.
  - rewrite (upload_run_newer Number disk bucket calls content) by done.
    unfold upload_files, bind, host_call. rewrite Hdir, Hfiles.
    clear Hfiles. rewrite app_assoc.
    generalize (calls ++ [OssGet (OSS_PREFIX ++ latest_yml)]). intros calls1.
    revert calls1.
    induction Hbefore as [|g before [size Hg] Hbefore IH]; intros calls1.
    + cbn [app forEach fmap list_fmap].
      erewrite bind_throw by (by eapply put_entry_throw).
      by rewrite app_nil_r.
    + cbn [app forEach]. erewrite bind_normal by (by eapply put_entry_ok).
      rewrite IH. simpl. by rewrite <- app_assoc.
  - unfold upload_all, bind, host_call. rewrite Hdir.
    case_bool_decide as Hlen.
    + apply length_zero_iff_nil in Hlen. rewrite Hlen. simpl.
      unfold ret. by rewrite app_nil_r.
    + apply upload_all_loop.
Qed.

Lemma upload_stat_failure_witness :
  upload digits_Number disk_locked bucket_1_2 []
    = (Throw (Error "EBUSY"), [OssGet (js "chatecnu-desktop/releases/latest.yml")]) ∧
  upload_all disk_locked bucket_1_2 []
    = (Normal tt, [put_call (js "latest.yml")]).
Proof.
  destruct (upload_stat_failure digits_Number disk_locked bucket_1_2 []
              (js "version: 1.3.0") [ js "app-1.3.0.exe"; js "latest.yml" ]
              [] (js "app-1.3.0.exe") [js "latest.yml"] (Error "EBUSY"))
    as [H1 H2].
  - reflexivity.
  - reflexivity.
  - right. exists (js "1.3.0"), 49%N, (js ".2.0"). by vm_compute.
  - reflexivity.
  - by vm_compute.
  - constructor.
  - reflexivity.
  - split; [exact H1|]. etrans; [exact H2|]. by vm_compute.
Defined.

(** X24. When [dist/latest.yml] has no version line, [upload]
    rejects with a TypeError, after reading the remote file, if the bucket has
    a version; if it has none, the upload goes on with the filter looking for
    the text [null] in the names. *)
Theorem upload_without_local_version (Number : JsString → JsNumber)
    (disk : Disk) (bucket : Bucket) (calls : list OssCall) content :
  existsSync disk = true → readFileSync disk = Normal content →
  parseVersion content = None →
  upload Number disk bucket calls =
    if truthy_string (remote_version bucket)
    then (Throw TypeError, calls ++ [OssGet (OSS_PREFIX ++ latest_yml)])
    else upload_files disk bucket None
           (calls ++ [OssGet (OSS_PREFIX ++ latest_yml)]).
Proof.
  intros Hex Hread Hnone.
  rewrite (upload_run Number disk bucket calls content) by done.
  rewrite Hnone. cbn zeta. by destruct (remote_version bucket) as [[|??]|].
Qed.

Lemma upload_without_local_version_witness :
  upload digits_Number disk_no_version bucket_1_2 []
    = (Throw TypeError, [OssGet (js "chatecnu-desktop/releases/latest.yml")]).
Proof.
  etrans.
  - by apply (upload_without_local_version digits_Number disk_no_version
                bucket_1_2 [] (js "path: app.exe")).
  - by vm_compute.
Defined.

Lemma wanted_release_name (localVersion : option JsString) (f : JsString) :
  wanted localVersion f = true → release_name f.
Proof.
  unfold wanted, release_name.
  intros [?%bool_decide_eq_true_1|[_ [?|?]%orb_true_iff]%andb_true_iff]%orb_true_iff;
    eauto.
Qed.

Lemma upload_files_calls (disk : Disk) (bucket : Bucket)
    (localVersion : option JsString) (calls : list OssCall) :
  ∃ c done, upload_files disk bucket localVersion calls
              = (c, calls ++ (put_call <$> done)) ∧
            Forall release_name done.
Proof.
  unfold upload_files, bind, host_call.
  destruct (readdirSync disk) as [names|e].
  - destruct (upload_loop disk bucket
                (List.filter (wanted localVersion) names) calls)
      as (c & done & rest & -> & Hfiles & _ & _).
    exists c, done. split; [done|].
    assert (Forall release_name (List.filter (wanted localVersion) names)) as H.
    { apply Forall_forall. intros f [_ Hf]%list_elem_of_In%filter_In.
      by apply wanted_release_name in Hf. }
    rewrite Hfiles in H. by apply Forall_app in H as [? _].
  - exists (Throw e), []. simpl. by rewrite app_nil_r.
Qed.

(** X25. Whatever the file system and the bucket answer, [upload] makes
    at most one read, of the remote [latest.yml], followed by puts of entries
    named [latest.yml] or ending in [.exe] or [.blockmap], each under the
    release prefix with its own name; without [dist/latest.yml] it resolves
    without any call. *)
Theorem upload_calls (Number : JsString → JsNumber) (disk : Disk)
    (bucket : Bucket) (calls : list OssCall) :
  release_calls calls (upload Number disk bucket calls) ∧
  (existsSync disk = false →
     upload Number disk bucket calls = (Normal tt, calls)).
Proof.
  assert (∀ c, release_calls calls (c, calls)) as Hnone.
  { intros c. exists [], []. simpl. rewrite app_nil_r. eauto. }
  assert (∀ c, release_calls calls
                 (c, calls ++ [OssGet (OSS_PREFIX ++ latest_yml)])) as Hget.
  { intros c. exists [OssGet (OSS_PREFIX ++ latest_yml)], []. eauto. }
  destruct (existsSync disk) eqn:Hex; last first.
  { unfold upload. rewrite Hex. simpl. unfold ret. eauto. }
  split; [|done].
  destruct (readFileSync disk) as [content|e] eqn:Hread; last first.
  { unfold upload. rewrite Hex. simpl. unfold bind, host_call.
    rewrite Hread. apply Hnone. }
  rewrite (upload_run Number disk bucket calls content) by done. cbn zeta.
  assert (release_calls calls
            (upload_files disk bucket (parseVersion content)
               (calls ++ [OssGet (OSS_PREFIX ++ latest_yml)]))) as Hgo.
  { destruct (upload_files_calls disk bucket (parseVersion content)
                (calls ++ [OssGet (OSS_PREFIX ++ latest_yml)]))
      as (c & done & -> & Hdone).
    exists [OssGet (OSS_PREFIX ++ latest_yml)], done.
    simpl. rewrite <- app_assoc. eauto. }
  destruct (remote_version bucket) as [[|c0 b]|]; try done.
  destruct (parseVersion content) as [a|]; [|done].
  by destruct (bool_decide _).
Qed.

Lemma upload_calls_witness :
  upload digits_Number disk_empty bucket_1_2 [] = (Normal tt, []).
Proof.
  by apply (upload_calls digits_Number disk_empty bucket_1_2 []).
Defined.

(** X26. The other revision of [upload] rejects only when [dist]
    cannot be listed; otherwise it resolves after putting, in directory
    order, every entry named [latest.yml] or ending in [.exe] or
    [.exe.blockmap] that can be examined, whether or not the puts
    succeed. *)
Theorem upload_all_puts (disk : Disk) (bucket : Bucket) (calls : list OssCall) :
  upload_all disk bucket calls =
    match readdirSync disk with
    | Normal names =>
        (Normal tt,
         calls ++ (put_call <$> List.filter (readable disk)
                                  (List.filter wanted_all names)))
    | Throw e => (Throw e, calls)
    end.
Proof.
  unfold upload_all, bind, host_call.
  destruct (readdirSync disk) as [names|e]; [|done].
  case_bool_decide as Hlen.
  - apply length_zero_iff_nil in Hlen. rewrite Hlen. simpl.
    unfold ret. by rewrite app_nil_r.
  - apply upload_all_loop.
Qed.
